(** * Block pre-splitting by fingerprint comparison (lib/compress/zstd_preSplit.c)

    A shallow embedding of the content-shift detector that chooses a split
    point inside a 128 KiB block, and the properties of it that the
    specification states.

    Conventions of the embedding:
    - fixed-width C integers are values of [Z] and every operation that can
      leave the type's range is wrapped explicitly ([u32], [u64], [s32],
      [s64]); [size_t] is 64 bits wide (LP64);
    - memory is a map from addresses to bytes, a pointer is an address;
    - the [events] array is a list updated by index;
    - a loop whose trip count depends on its data carries fuel and yields
      [None] when the fuel runs out; the callers pass enough fuel for every
      terminating run, and the lemmas below prove it. *)

From Stdlib Require Import ZArith Lia Bool.
From Stdlib Require Import Strings.Byte.
From stdpp Require Import base option list.

Local Open Scope Z_scope.

(** ** Fixed-width integers *)

Module Int.

Definition u32 (z : Z) : Z := z mod 2 ^ 32.
Definition u64 (z : Z) : Z := z mod 2 ^ 64.
Definition s32 (z : Z) : Z := (z + 2 ^ 31) mod 2 ^ 32 - 2 ^ 31.
Definition s64 (z : Z) : Z := (z + 2 ^ 63) mod 2 ^ 64 - 2 ^ 63.

Definition INT_MAX : Z := 2 ^ 31 - 1.

End Int.
Import Int.

(** ** Constants of the file *)

Definition BLOCKSIZE_MIN : Z := 3500.
Definition THRESHOLD_PENALTY_RATE : Z := 16.
Definition THRESHOLD_BASE : Z := THRESHOLD_PENALTY_RATE - 2.
Definition THRESHOLD_PENALTY : Z := 3.

Definition HASHLENGTH : Z := 2.
Definition HASHLOG_MAX : Z := 10.
Definition HASHTABLESIZE : Z := Z.shiftl 1 HASHLOG_MAX.
Definition HASHMASK : Z := HASHTABLESIZE - 1.
Definition KNUTH : Z := 0x9e3779b9.

Definition CHUNKSIZE : Z := Z.shiftl 8 10.

(** ** Memory *)

Definition memory : Type := Z -> Byte.byte.

Definition load8 (m : memory) (p : Z) : Z := Z.of_N (Byte.to_N (m p)).

(** Modelled from the spec: [MEM_read16] is declared in common/mem.h, which is
    not among the sources; the two bytes at [p] are read as one 16-bit
    integer, least significant byte first. *)
Definition MEM_read16 (m : memory) (p : Z) : Z :=
  load8 m p + 256 * load8 m (p + 1).

(** ** Hasher *)

Definition hash2 (m : memory) (p : Z) (hashLog : Z) : Z :=
  Z.shiftr (u32 (u32 (MEM_read16 m p) * KNUTH)) (32 - hashLog).

(** ** Fingerprints *)

Record Fingerprint : Type := mkFingerprint {
  events : list Z;
  nbEvents : Z
}.

Record FPStats : Type := mkFPStats {
  pastEvents : Fingerprint;
  newEvents : Fingerprint
}.

Definition zeroFingerprint : Fingerprint :=
  mkFingerprint (replicate (Z.to_nat HASHTABLESIZE) 0) 0.

(** [ZSTD_memset(fpstats, 0, sizeof(FPStats))]: whatever the workspace held is
    overwritten. *)
Definition initStats (fpstats : FPStats) : FPStats :=
  mkFPStats zeroFingerprint zeroFingerprint.

(** [a[i]] and [a[i]++] on an array of [unsigned]. *)
Definition ev (a : list Z) (i : nat) : Z := default 0 (a !! i).

Definition incr (h : Z) (a : list Z) : list Z :=
  alter (fun c => u32 (c + 1)) (Z.to_nat h) a.

(** [for (n = 0; n < limit; n += step) s = body(n, s)] over [size_t]. *)
Fixpoint for_stride {St : Type} (fuel : nat) (n limit step : Z)
    (body : Z -> St -> St) (s : St) : option St :=
  match fuel with
  | O => None
  | S fuel' =>
      if n <? limit
      then for_stride fuel' (u64 (n + step)) limit step body (body n s)
      else Some s
  end.

(** [for (n = 0; n < count; n++) s = body(n, s)]. *)
Definition for_upto {St : Type} (count : nat) (body : nat -> St -> St) (s : St) : St :=
  fold_left (fun s n => body n s) (seq 0 count) s.

Definition addEvents_generic (fp : Fingerprint) (m : memory) (src : Z)
    (srcSize samplingRate : Z) (hashLog : Z) : option Fingerprint :=
  let p := src in
  let limit := u64 (srcSize - HASHLENGTH + 1) in
  match for_stride (S (Z.to_nat limit)) 0 limit samplingRate
          (fun n a => incr (hash2 m (p + n) hashLog) a) (events fp) with
  | Some a => Some (mkFingerprint a (u64 (nbEvents fp + limit / samplingRate)))
  | None => None
  end.

(** [ZSTD_memset(fp, 0, sizeof(unsigned) * count)]: the first [count] counters
    are cleared, the others keep their value. *)
Definition memset_events (a : list Z) (count : Z) : list Z :=
  replicate (Z.to_nat count) 0 ++ drop (Z.to_nat count) a.

Definition recordFingerprint_generic (fp : Fingerprint) (m : memory) (src : Z)
    (srcSize samplingRate : Z) (hashLog : Z) : option Fingerprint :=
  let fp1 := mkFingerprint (memset_events (events fp) (Z.shiftl 1 hashLog)) (nbEvents fp) in
  let fp2 := mkFingerprint (events fp1) 0 in
  addEvents_generic fp2 m src srcSize samplingRate hashLog.

Definition ZSTD_recordFingerprint_1 (fp : Fingerprint) (m : memory) (src srcSize : Z) :=
  recordFingerprint_generic fp m src srcSize 1 10.
Definition ZSTD_recordFingerprint_5 (fp : Fingerprint) (m : memory) (src srcSize : Z) :=
  recordFingerprint_generic fp m src srcSize 5 10.
Definition ZSTD_recordFingerprint_11 (fp : Fingerprint) (m : memory) (src srcSize : Z) :=
  recordFingerprint_generic fp m src srcSize 11 9.

(** ** Comparator *)

Definition abs64 (s : Z) : Z := u64 (if s <? 0 then s64 (- s) else s).

Definition fpDistance (fp1 fp2 : Fingerprint) (hashLog : Z) : Z :=
  for_upto (Z.to_nat (u64 (Z.shiftl 1 hashLog)))
    (fun n distance =>
       u64 (distance +
            abs64 (s64 (s64 (ev (events fp1) n * s64 (nbEvents fp2))
                        - s64 (ev (events fp2) n * s64 (nbEvents fp1))))))
    0.

Definition compareFingerprints (ref newfp : Fingerprint) (penalty : Z)
    (hashLog : Z) : bool :=
  let p50 := u64 (u64 (nbEvents ref) * u64 (nbEvents newfp)) in
  let deviation := fpDistance ref newfp hashLog in
  let threshold :=
    u64 (p50 * u64 (s32 (THRESHOLD_BASE + penalty))) / THRESHOLD_PENALTY_RATE in
  threshold <=? deviation.

(** ** Accumulator *)

Definition mergeEvents (acc newfp : Fingerprint) : Fingerprint :=
  let a := for_upto (Z.to_nat HASHTABLESIZE)
             (fun n a => <[n := u32 (ev a n + ev (events newfp) n)]> a)
             (events acc) in
  mkFingerprint a (u64 (nbEvents acc + nbEvents newfp)).

Definition flushEvents (fpstats : FPStats) : FPStats :=
  let past := for_upto (Z.to_nat HASHTABLESIZE)
                (fun n a => <[n := ev (events (newEvents fpstats)) n]> a)
                (events (pastEvents fpstats)) in
  mkFPStats (mkFingerprint past (nbEvents (newEvents fpstats))) zeroFingerprint.

Definition removeEvents (acc slice : Fingerprint) : Fingerprint :=
  let a := for_upto (Z.to_nat HASHTABLESIZE)
             (fun n a => <[n := u32 (ev a n - ev (events slice) n)]> a)
             (events acc) in
  mkFingerprint a (u64 (nbEvents acc - nbEvents slice)).

(** ** Chunk scanner *)

(** The strategy selector of zstd_preSplit.h; its values index [records_fs]
    and [hashParams] in this order. *)
Inductive ZSTD_SplitBlock_strategy_e : Type :=
  | split_lvl1
  | split_lvl2
  | split_lvl3.

Definition records_fs (splitStrat : ZSTD_SplitBlock_strategy_e)
    : Fingerprint -> memory -> Z -> Z -> option Fingerprint :=
  match splitStrat with
  | split_lvl1 => ZSTD_recordFingerprint_11
  | split_lvl2 => ZSTD_recordFingerprint_5
  | split_lvl3 => ZSTD_recordFingerprint_1
  end.

Definition hashParams (splitStrat : ZSTD_SplitBlock_strategy_e) : Z :=
  match splitStrat with
  | split_lvl1 => 9
  | split_lvl2 => 10
  | split_lvl3 => 10
  end.

(** The locals of [ZSTD_splitBlock_byChunks] that change in its loop. *)
Record scan_state : Type := mkScan {
  pos : Z;
  penalty : Z;
  fpstats : FPStats
}.

Inductive body_result : Type :=
  | Return (offset : Z)
  | Next (st : scan_state).

(** One run of the loop body at [st], followed by the loop's increment. *)
Definition scan_body (m : memory) (p : Z) (splitStrat : ZSTD_SplitBlock_strategy_e)
    (st : scan_state) : option body_result :=
  let record_f := records_fs splitStrat in
  match record_f (newEvents (fpstats st)) m (p + pos st) CHUNKSIZE with
  | None => None
  | Some cand =>
      let past := pastEvents (fpstats st) in
      if compareFingerprints past cand (penalty st) (hashParams splitStrat)
      then Some (Return (pos st))
      else
        Some (Next (mkScan (u64 (pos st + CHUNKSIZE))
                           (if penalty st >? 0 then s32 (penalty st - 1) else penalty st)
                           (mkFPStats (mergeEvents past cand) cand)))
  end.

Fixpoint scan_loop (fuel : nat) (m : memory) (p : Z) (blockSize : Z)
    (splitStrat : ZSTD_SplitBlock_strategy_e) (st : scan_state) : option Z :=
  match fuel with
  | O => None
  | S fuel' =>
      if pos st <=? u64 (blockSize - CHUNKSIZE)
      then match scan_body m p splitStrat st with
           | None => None
           | Some (Return offset) => Some offset
           | Some (Next st') => scan_loop fuel' m p blockSize splitStrat st'
           end
      else Some blockSize
  end.

(** The state in which the loop is entered: the workspace cleared, the first
    chunk recorded as the reference. *)
Definition scan_init (m : memory) (blockStart : Z)
    (splitStrat : ZSTD_SplitBlock_strategy_e) (workspace : FPStats)
    : option scan_state :=
  let fps := initStats workspace in
  match records_fs splitStrat (pastEvents fps) m blockStart CHUNKSIZE with
  | None => None
  | Some past => Some (mkScan CHUNKSIZE THRESHOLD_PENALTY (mkFPStats past (newEvents fps)))
  end.

Definition ZSTD_splitBlock_byChunks (m : memory) (blockStart : Z) (blockSize : Z)
    (splitStrat : ZSTD_SplitBlock_strategy_e) (workspace : FPStats) (wkspSize : Z)
    : option Z :=
  match scan_init m blockStart splitStrat workspace with
  | None => None
  | Some st =>
      scan_loop (S (Z.to_nat (blockSize / CHUNKSIZE))) m blockStart blockSize splitStrat st
  end.

Definition ZSTD_splitBlock (m : memory) (blockStart : Z) (blockSize : Z)
    (splitStrat : ZSTD_SplitBlock_strategy_e) (workspace : FPStats) (wkspSize : Z)
    : option Z :=
  ZSTD_splitBlock_byChunks m blockStart blockSize splitStrat workspace wkspSize.


(** ** Auxiliary definitions for the statements *)

(** The offsets visited by [count] rounds of a strided loop that starts at [n]. *)
Fixpoint offsets (count : nat) (n step : Z) : list Z :=
  match count with
  | O => []
  | S count' => n :: offsets count' (n + step) step
  end.

(** The sum of [f 0 .. f (count - 1)], as the counted loop computes it without
    wrap-around. *)
Definition Zsum_upto (count : nat) (f : nat -> Z) : Z :=
  for_upto count (fun n s => s + f n) 0.

(** The sum of the bucket counts of a fingerprint taken with [hashLog]. *)
Definition sum_counts (fp : Fingerprint) (hashLog : Z) : Z :=
  Zsum_upto (Z.to_nat (2 ^ hashLog)) (ev (events fp)).

(** The loop of [addEvents_generic] with a body that only counts its rounds. *)
Definition addEvents_iterations (srcSize samplingRate : Z) : option Z :=
  let limit := u64 (srcSize - HASHLENGTH + 1) in
  for_stride (S (Z.to_nat limit)) 0 limit samplingRate (fun _ c => c + 1) 0.

(** The comparator as the specification words it: exact integers. *)
Definition spec_distance (ref cand : Fingerprint) (hashLog : Z) : Z :=
  Zsum_upto (Z.to_nat (2 ^ hashLog))
    (fun b => Z.abs (ev (events ref) b * nbEvents cand
                     - ev (events cand) b * nbEvents ref)).

Definition spec_threshold (ref cand : Fingerprint) (penalty : Z) : Z :=
  (nbEvents ref * nbEvents cand) * (14 + penalty) / 16.

(** The counters after one increment for each bucket index of [hs], in order. *)
Definition add_hashes (hs : list Z) (a : list Z) : list Z :=
  fold_left (fun a h => incr h a) hs a.

(** The bucket indices that [addEvents_generic] hits in [count] rounds. *)
Definition sampled (m : memory) (src : Z) (samplingRate hashLog : Z) (count : nat)
    : list Z :=
  (fun n => hash2 m (src + n) hashLog) <$> offsets count 0 samplingRate.

(** The trip count of the loop of [addEvents_generic]. *)
Definition nbSamples (srcSize samplingRate : Z) : Z :=
  (srcSize - 2) / samplingRate + 1.

(** No intermediate result of one comparison leaves its C type: the casts to
    [S64] keep their operand, the products and their difference fit in [S64],
    the running distance and the scaled product of the totals fit in [U64],
    and [THRESHOLD_BASE + penalty] fits in [int]. *)
Definition bucket_exact (ref cand : Fingerprint) (b : nat) : bool :=
  (0 <=? ev (events ref) b) && (0 <=? ev (events cand) b)
  && (ev (events ref) b * nbEvents cand <? 2 ^ 63)
  && (ev (events cand) b * nbEvents ref <? 2 ^ 63).

Definition comparison_exact (ref cand : Fingerprint) (penalty hashLog : Z) : bool :=
  (0 <=? hashLog) && (hashLog <=? HASHLOG_MAX)
  && forallb (bucket_exact ref cand) (seq 0 (Z.to_nat (2 ^ hashLog)))
  && (spec_distance ref cand hashLog <? 2 ^ 64)
  && (nbEvents ref * nbEvents cand * (14 + penalty) <? 2 ^ 64)
  && (14 + penalty <=? INT_MAX).

(** A fingerprint of [2 ^ 32] samples spread evenly over the 1024 buckets. *)
Definition fp_wide : Fingerprint :=
  mkFingerprint (replicate (Z.to_nat HASHTABLESIZE) (2 ^ 22)) (2 ^ 32).

(** Two small fingerprints: three samples in bucket 0, two samples in bucket 1. *)
Definition fp_three : Fingerprint :=
  mkFingerprint (<[0%nat := 3]> (replicate (Z.to_nat HASHTABLESIZE) 0)) 3.
Definition fp_two : Fingerprint :=
  mkFingerprint (<[1%nat := 2]> (replicate (Z.to_nat HASHTABLESIZE) 0)) 2.

(** The only block size the driver accepts:
    [assert(blockSize == (128 << 10))]. *)
Definition BLOCKSIZE : Z := Z.shiftl 128 10.

(** [k] copies of a fingerprint merged into one, when nothing wraps. *)
Definition scale (k : Z) (fp : Fingerprint) : Fingerprint :=
  mkFingerprint ((fun x => k * x) <$> events fp) (k * nbEvents fp).

(** The stride that [records_fs] binds to each strategy. *)
Definition samplingRate_of (splitStrat : ZSTD_SplitBlock_strategy_e) : Z :=
  match splitStrat with
  | split_lvl1 => 11
  | split_lvl2 => 5
  | split_lvl3 => 1
  end.

(** The fingerprint that recording the chunk at [src] leaves in [fp]. *)
Definition recorded (splitStrat : ZSTD_SplitBlock_strategy_e) (fp : Fingerprint)
    (m : memory) (src : Z) : Fingerprint :=
  let rate := samplingRate_of splitStrat in
  let hashLog := hashParams splitStrat in
  mkFingerprint
    (add_hashes (sampled m src rate hashLog (Z.to_nat (nbSamples CHUNKSIZE rate)))
       (memset_events (events fp) (Z.shiftl 1 hashLog)))
    ((CHUNKSIZE - 1) / rate).

(** The fingerprint of the chunk at [src], recorded into a cleared workspace. *)
Definition chunk_fp (splitStrat : ZSTD_SplitBlock_strategy_e) (m : memory) (src : Z)
    : Fingerprint :=
  recorded splitStrat zeroFingerprint m src.

(** [scan_steps st d st']: from [st] the loop passes its test and accepts
    the comparison [d] times in a row, which leaves it in [st']. *)
Inductive scan_steps (m : memory) (blockStart blockSize : Z)
    (splitStrat : ZSTD_SplitBlock_strategy_e)
    : scan_state -> nat -> scan_state -> Prop :=
  | steps_done st :
      scan_steps m blockStart blockSize splitStrat st O st
  | steps_next st st1 st' d :
      (pos st <=? u64 (blockSize - CHUNKSIZE)) = true ->
      scan_body m blockStart splitStrat st = Some (Next st1) ->
      scan_steps m blockStart blockSize splitStrat st1 d st' ->
      scan_steps m blockStart blockSize splitStrat st (S d) st'.

(** The states in which the loop of the driver reaches its test, indexed by
    the number of comparisons accepted so far. *)
Definition scan_reach (m : memory) (blockStart blockSize : Z)
    (splitStrat : ZSTD_SplitBlock_strategy_e) (workspace : FPStats)
    (n : nat) (st : scan_state) : Prop :=
  exists st0,
    scan_init m blockStart splitStrat workspace = Some st0
    /\ scan_steps m blockStart blockSize splitStrat st0 n st.

(** The state of the scan after [j] accepted comparisons on a block whose
    chunks all have the fingerprint [F]: the reference is [j + 1] copies of
    [F], and the candidate slot is clear beyond the range its next recording
    clears. *)
Definition scan_inv (splitStrat : ZSTD_SplitBlock_strategy_e) (F : Fingerprint)
    (j : nat) (st : scan_state) : Prop :=
  pos st = (Z.of_nat j + 1) * CHUNKSIZE
  /\ penalty st = Z.max 0 (THRESHOLD_PENALTY - Z.of_nat j)
  /\ pastEvents (fpstats st) = scale (Z.of_nat j + 1) F
  /\ drop (Z.to_nat (Z.shiftl 1 (hashParams splitStrat)))
          (events (newEvents (fpstats st)))
     = drop (Z.to_nat (Z.shiftl 1 (hashParams splitStrat))) (events zeroFingerprint).

(** ** Sample blocks

    All three start at address 0 and are built from the bytes [0x00] and
    [0x9d] with a period of 11 bytes inside each 8 KiB chunk. *)

(** One [0x9d] per period: at phase 3 in the first chunk, at phase 1 in the
    others.  The windows sampled with stride 11 differ between the first
    chunk and the rest; the windows sampled with stride 1 are the same ones
    in another order. *)
Definition shifted_block : memory :=
  fun a =>
    if (a mod 8192) mod 11 =? (if a <? 8192 then 3 else 1) then x9d else x00.

(** The first chunk is all [0x00]; in the others only phases 0 and 1 are
    [0x00].  The windows sampled with stride 11 are the same everywhere. *)
Definition dense_block : memory :=
  fun a =>
    if a <? 8192 then x00
    else if (a mod 8192) mod 11 <? 2 then x00 else x9d.

(** Fifteen chunks of [0x00] followed by one chunk of [0x9d]. *)
Definition tail_block : memory :=
  fun a => if a <? 15 * 8192 then x00 else x9d.

Definition workspace0 : FPStats := mkFPStats zeroFingerprint zeroFingerprint.

(** What holds of the state of any scan of a 128 KiB block after [j] accepted
    comparisons: the position, the range of the penalty, and bounds on the
    reference fingerprint that grow with [j]. *)
Definition scan_bounded (splitStrat : ZSTD_SplitBlock_strategy_e)
    (j : nat) (st : scan_state) : Prop :=
  pos st = (Z.of_nat j + 1) * CHUNKSIZE
  /\ 0 <= penalty st <= THRESHOLD_PENALTY
  /\ length (events (pastEvents (fpstats st))) = Z.to_nat HASHTABLESIZE
  /\ Forall (fun x => 0 <= x <= (Z.of_nat j + 1) * 8191)
            (events (pastEvents (fpstats st)))
  /\ 0 < nbEvents (pastEvents (fpstats st)) <= (Z.of_nat j + 1) * 8191
  /\ drop (Z.to_nat (Z.shiftl 1 (hashParams splitStrat)))
          (events (newEvents (fpstats st)))
     = drop (Z.to_nat (Z.shiftl 1 (hashParams splitStrat))) (events zeroFingerprint).

(** Sixteen copies of one 8 KiB chunk that has a [0x9d] every 11 bytes. *)
Definition periodic_block : memory :=
  fun a => if (a mod 8192) mod 11 =? 3 then x9d else x00.

(** One chunk of [0x00] followed by [0x9d] throughout. *)
Definition two_tone_block : memory :=
  fun a => if a <? 8192 then x00 else x9d.

(** No bucket below [2 ^ hashLog] is hit in both fingerprints. *)
Definition disjoint_buckets (fp1 fp2 : Fingerprint) (hashLog : Z) : bool :=
  forallb (fun b => (ev (events fp1) b =? 0) || (ev (events fp2) b =? 0))
          (seq 0 (Z.to_nat (2 ^ hashLog))).

(** ** Properties *)

(** *** Fixed-width integers *)

Ltac lia_mod := Z.to_euclidean_division_equations; lia.

Lemma u32_range z : 0 <= u32 z < 2 ^ 32.
Proof. unfold u32. lia_mod. Qed.

Lemma u64_range z : 0 <= u64 z < 2 ^ 64.
Proof. unfold u64. lia_mod. Qed.

Lemma s64_range z : - 2 ^ 63 <= s64 z < 2 ^ 63.
Proof. unfold s64. lia_mod. Qed.

Lemma u32_small z : 0 <= z < 2 ^ 32 -> u32 z = z.
Proof. unfold u32. intros. apply Z.mod_small. lia. Qed.

Lemma u64_small z : 0 <= z < 2 ^ 64 -> u64 z = z.
Proof. unfold u64. intros. apply Z.mod_small. lia. Qed.

Lemma s64_small z : - 2 ^ 63 <= z < 2 ^ 63 -> s64 z = z.
Proof. unfold s64. intros. rewrite Z.mod_small; lia. Qed.

Lemma s32_small z : - 2 ^ 31 <= z < 2 ^ 31 -> s32 z = z.
Proof. unfold s32. intros. rewrite Z.mod_small; lia. Qed.

Lemma u32_le z : 0 <= z -> u32 z <= z.
Proof. unfold u32. intros. lia_mod. Qed.

Lemma abs64_small z : - 2 ^ 63 < z < 2 ^ 63 -> abs64 z = Z.abs z.
Proof.
  intros Hz. unfold abs64.
  destruct (Z.ltb_spec z 0).
  - rewrite s64_small, u64_small; lia.
  - rewrite u64_small; lia.
Qed.

(** Negating the operand of the signed subtraction does not change [abs64],
    also when the difference wraps. *)
Lemma abs64_s64_opp x y : abs64 (s64 (x - y)) = abs64 (s64 (y - x)).
Proof.
  unfold abs64.
  assert (Hk : s64 (y - x) = - s64 (x - y) \/
               (s64 (y - x) = - 2 ^ 63 /\ s64 (x - y) = - 2 ^ 63)).
  { unfold s64. lia_mod. }
  pose proof (s64_range (x - y)) as Hr.
  pose proof (s64_range (y - x)) as Hr'.
  destruct Hk as [Hk | [Hk1 Hk2]].
  - rewrite Hk in Hr' |- *.
    destruct (Z.ltb_spec (s64 (x - y)) 0), (Z.ltb_spec (- s64 (x - y)) 0);
      try lia.
    + f_equal. apply s64_small. lia.
    + f_equal. rewrite Z.opp_involutive. symmetry. apply s64_small. lia.
    + replace (s64 (x - y)) with 0 by lia. reflexivity.
  - rewrite Hk1, Hk2. reflexivity.
Qed.

(** *** Constants *)

Lemma CHUNKSIZE_eq : CHUNKSIZE = 8192.
Proof. reflexivity. Qed.

Lemma HASHTABLESIZE_eq : HASHTABLESIZE = 1024.
Proof. reflexivity. Qed.

(** *** Loops *)

Lemma for_upto_S {St : Type} (count : nat) (body : nat -> St -> St) (s : St) :
  for_upto (S count) body s = body count (for_upto count body s).
Proof. unfold for_upto. rewrite seq_S, fold_left_app. reflexivity. Qed.

Lemma for_upto_ext {St : Type} (count : nat) (body body' : nat -> St -> St) (s : St) :
  (forall n s', (n < count)%nat -> body n s' = body' n s') ->
  for_upto count body s = for_upto count body' s.
Proof.
  induction count as [|c IH]; intros Hb; [reflexivity|].
  rewrite !for_upto_S, IH by (intros; apply Hb; lia).
  apply Hb. lia.
Qed.

Lemma length_offsets count n step : length (offsets count n step) = count.
Proof. revert n. induction count; intros; simpl; auto. Qed.

(** The strided loop visits [offsets count n step] when [count] is its trip
    count, the counter does not wrap, and the fuel exceeds the trip count. *)
Lemma for_stride_offsets {St : Type} (body : Z -> St -> St) (count : nat) :
  forall (fuel : nat) (n limit step : Z) (s : St),
    (count < fuel)%nat -> 0 <= n -> 0 < step ->
    n + Z.of_nat count * step < 2 ^ 64 ->
    (forall k, (k < count)%nat -> n + Z.of_nat k * step < limit) ->
    limit <= n + Z.of_nat count * step ->
    for_stride fuel n limit step body s
    = Some (fold_left (fun s k => body k s) (offsets count n step) s).
Proof.
  induction count as [|c IH]; intros fuel n limit step s Hf Hn Hs Hw Hlt Hge.
  - destruct fuel as [|f]; [lia|]. simpl.
    destruct (Z.ltb_spec n limit); [lia|reflexivity].
  - destruct fuel as [|f]; [lia|]. simpl.
    specialize (Hlt O ltac:(lia)) as Hn0.
    destruct (Z.ltb_spec n limit); [|lia].
    rewrite u64_small by lia.
    apply IH; try lia.
    intros k Hk. specialize (Hlt (S k) ltac:(lia)). lia.
Qed.

(** *** Hasher *)

Lemma hash2_range m p hashLog :
  0 <= hashLog <= 32 -> 0 <= hash2 m p hashLog < 2 ^ hashLog.
Proof.
  intros Hh. unfold hash2.
  pose proof (u32_range (u32 (MEM_read16 m p) * KNUTH)) as Hr.
  rewrite Z.shiftr_div_pow2 by lia.
  assert (Hp : 2 ^ 32 = 2 ^ (32 - hashLog) * 2 ^ hashLog).
  { rewrite <- Z.pow_add_r by lia. f_equal. lia. }
  assert (0 < 2 ^ (32 - hashLog)) by (apply Z.pow_pos_nonneg; lia).
  split.
  - apply Z.div_pos; lia.
  - apply Z.div_lt_upper_bound; lia.
Qed.

(** *** Counters *)

Lemma ev_lookup (a : list Z) i x : a !! i = Some x -> ev a i = x.
Proof. unfold ev. intros ->. reflexivity. Qed.

Lemma ev_incr h (a : list Z) i :
  ev (incr h a) i
  = if decide (Z.to_nat h = i /\ (i < length a)%nat) then u32 (ev a i + 1) else ev a i.
Proof.
  unfold ev, incr. rewrite list_lookup_alter.
  destruct (decide (Z.to_nat h = i)) as [->|Hne].
  - destruct (a !! i) as [x|] eqn:Hx.
    + apply lookup_lt_Some in Hx as Hlt. rewrite decide_True by auto. reflexivity.
    + apply lookup_ge_None in Hx as Hge. rewrite decide_False by lia. reflexivity.
  - rewrite decide_False by tauto. reflexivity.
Qed.

Lemma length_incr h (a : list Z) : length (incr h a) = length a.
Proof. apply length_alter. Qed.

Lemma drop_incr h (a : list Z) (k : nat) :
  (Z.to_nat h < k)%nat -> drop k (incr h a) = drop k a.
Proof. intros. unfold incr. rewrite drop_alter, decide_False by lia. reflexivity. Qed.

Lemma length_add_hashes hs (a : list Z) : length (add_hashes hs a) = length a.
Proof.
  revert a. induction hs as [|h hs IH]; intros a; [reflexivity|].
  unfold add_hashes in *. simpl. rewrite IH. apply length_incr.
Qed.

Lemma drop_add_hashes hs (a : list Z) (k : nat) :
  Forall (fun h => 0 <= h < Z.of_nat k) hs -> drop k (add_hashes hs a) = drop k a.
Proof.
  revert a. induction hs as [|h hs IH]; intros a Hhs; [reflexivity|].
  apply Forall_cons in Hhs as [Hh Hhs].
  unfold add_hashes in *. simpl. rewrite IH by assumption.
  apply drop_incr. lia.
Qed.

Lemma add_hashes_app hs1 hs2 (a : list Z) :
  add_hashes (hs1 ++ hs2) a = add_hashes hs2 (add_hashes hs1 a).
Proof. unfold add_hashes. apply fold_left_app. Qed.

(** A counter grows by at most one per increment and never drops below 0. *)
Lemma ev_add_hashes_bound hs (a : list Z) i :
  0 <= ev a i -> 0 <= ev (add_hashes hs a) i <= ev a i + Z.of_nat (length hs).
Proof.
  revert a. induction hs as [|h hs IH]; intros a Ha.
  - simpl. lia.
  - unfold add_hashes in *. simpl.
    assert (Hstep : 0 <= ev (incr h a) i <= ev a i + 1).
    { rewrite ev_incr. case_decide; [|lia].
      pose proof (u32_range (ev a i + 1)). pose proof (u32_le (ev a i + 1)). lia. }
    specialize (IH (incr h a) ltac:(lia)). lia.
Qed.

(** *** Sums over bucket indices *)

Lemma Zsum_upto_S count f : Zsum_upto (S count) f = Zsum_upto count f + f count.
Proof. unfold Zsum_upto. rewrite for_upto_S. reflexivity. Qed.

Lemma Zsum_upto_ext count f g :
  (forall n, (n < count)%nat -> f n = g n) -> Zsum_upto count f = Zsum_upto count g.
Proof.
  induction count as [|c IH]; intros Hfg; [reflexivity|].
  rewrite !Zsum_upto_S, IH, Hfg by (intros; try apply Hfg; lia). reflexivity.
Qed.

Lemma Zsum_upto_nonneg count f :
  (forall n, (n < count)%nat -> 0 <= f n) -> 0 <= Zsum_upto count f.
Proof.
  induction count as [|c IH]; intros Hf; [reflexivity|].
  rewrite Zsum_upto_S. specialize (Hf c ltac:(lia)) as Hc.
  assert (0 <= Zsum_upto c f) by (apply IH; intros; apply Hf; lia). lia.
Qed.

Lemma Zsum_upto_zero count f :
  (forall n, (n < count)%nat -> f n = 0) -> Zsum_upto count f = 0.
Proof.
  induction count as [|c IH]; intros Hf; [reflexivity|].
  rewrite Zsum_upto_S, IH, Hf by (intros; try apply Hf; lia). reflexivity.
Qed.

Lemma Zsum_upto_term count f i :
  (forall n, (n < count)%nat -> 0 <= f n) -> (i < count)%nat -> f i <= Zsum_upto count f.
Proof.
  induction count as [|c IH]; intros Hf Hi; [lia|].
  rewrite Zsum_upto_S.
  assert (0 <= Zsum_upto c f) by (apply Zsum_upto_nonneg; intros; apply Hf; lia).
  specialize (Hf c ltac:(lia)) as Hc.
  destruct (decide (i = c)) as [->|Hne]; [lia|].
  assert (f i <= Zsum_upto c f) by (apply IH; [intros; apply Hf|]; lia). lia.
Qed.

(** Changing one summand changes the sum by the same amount. *)
Lemma Zsum_upto_point count f g i :
  (i < count)%nat -> (forall n, (n < count)%nat -> n <> i -> g n = f n) ->
  Zsum_upto count g = Zsum_upto count f + (g i - f i).
Proof.
  induction count as [|c IH]; intros Hi Hfg; [lia|].
  rewrite !Zsum_upto_S.
  destruct (decide (i = c)) as [->|Hne].
  - rewrite (Zsum_upto_ext c g f) by (intros; apply Hfg; lia). lia.
  - rewrite IH, (Hfg c) by (intros; try apply Hfg; lia). lia.
Qed.

Lemma Zsum_ev_incr (count : nat) h (a : list Z) :
  0 <= h < Z.of_nat count -> (count <= length a)%nat ->
  (forall i, (i < count)%nat -> 0 <= ev a i) ->
  Zsum_upto count (ev a) + 1 < 2 ^ 32 ->
  Zsum_upto count (ev (incr h a)) = Zsum_upto count (ev a) + 1.
Proof.
  intros Hh Hlen Hpos Hsum.
  pose proof (Zsum_upto_term count (ev a) (Z.to_nat h) Hpos ltac:(lia)) as Hterm.
  rewrite (Zsum_upto_point count (ev a) (ev (incr h a)) (Z.to_nat h)); [|lia|].
  2:{ intros n Hn Hne. rewrite ev_incr, decide_False; [reflexivity|].
      intros [Heq _]. auto. }
  rewrite ev_incr, decide_True by (split; [reflexivity|lia]).
  rewrite u32_small; [lia|].
  specialize (Hpos (Z.to_nat h) ltac:(lia)). lia.
Qed.

Lemma ev_incr_nonneg h (a : list Z) i : 0 <= ev a i -> 0 <= ev (incr h a) i.
Proof.
  intros. rewrite ev_incr. case_decide; [|assumption].
  apply u32_range.
Qed.

(** Without wrap-around the bucket counts sum up to the number of increments. *)
Lemma Zsum_ev_add_hashes (count : nat) hs (a : list Z) :
  Forall (fun h => 0 <= h < Z.of_nat count) hs -> (count <= length a)%nat ->
  (forall i, (i < count)%nat -> 0 <= ev a i) ->
  Zsum_upto count (ev a) + Z.of_nat (length hs) < 2 ^ 32 ->
  Zsum_upto count (ev (add_hashes hs a))
  = Zsum_upto count (ev a) + Z.of_nat (length hs).
Proof.
  revert a. induction hs as [|h hs IH]; intros a Hhs Hlen Hpos Hsum.
  - simpl. lia.
  - apply Forall_cons in Hhs as [Hh Hhs].
    change (add_hashes (h :: hs) a) with (add_hashes hs (incr h a)).
    simpl length in *.
    rewrite IH; rewrite ?length_incr, ?Zsum_ev_incr; auto; try lia.
    intros i Hi. apply ev_incr_nonneg. auto.
Qed.

(** *** Clearing counters *)

Lemma ev_memset_events (a : list Z) count (i : nat) :
  (i < Z.to_nat count)%nat -> ev (memset_events a count) i = 0.
Proof.
  intros Hi. apply ev_lookup. unfold memset_events.
  rewrite lookup_app_l by (rewrite length_replicate; lia).
  apply lookup_replicate_2. lia.
Qed.

Lemma length_memset_events (a : list Z) count :
  (Z.to_nat count <= length (memset_events a count))%nat.
Proof. unfold memset_events. rewrite length_app, length_replicate. lia. Qed.

Lemma length_memset_events_eq (a : list Z) count :
  (Z.to_nat count <= length a)%nat -> length (memset_events a count) = length a.
Proof.
  intros. unfold memset_events. rewrite length_app, length_replicate, length_drop. lia.
Qed.

Lemma drop_memset_events (a : list Z) count :
  drop (Z.to_nat count) (memset_events a count) = drop (Z.to_nat count) a.
Proof.
  unfold memset_events. apply drop_app_length'. symmetry. apply length_replicate.
Qed.

(** Clearing depends on the old counters only beyond the cleared range. *)
Lemma memset_events_drop (a b : list Z) count :
  drop (Z.to_nat count) a = drop (Z.to_nat count) b ->
  memset_events a count = memset_events b count.
Proof. unfold memset_events. intros ->. reflexivity. Qed.

(** *** Recorder *)

Section Recorder.

Variables (srcSize samplingRate : Z).
Hypothesis HsrcSize : 2 <= srcSize.
Hypothesis Hrate : 1 <= samplingRate.
Hypothesis Hnowrap : srcSize + samplingRate <= 2 ^ 64.

Local Abbreviation count := (Z.to_nat (nbSamples srcSize samplingRate)).

Lemma nbSamples_pos : 1 <= nbSamples srcSize samplingRate <= srcSize - 1.
Proof using HsrcSize Hrate.
  unfold nbSamples.
  assert (0 <= (srcSize - 2) / samplingRate) by (apply Z.div_pos; lia).
  assert ((srcSize - 2) / samplingRate <= srcSize - 2)
    by (apply Z.div_le_upper_bound; nia).
  lia.
Qed.

Lemma nbSamples_inside k :
  (k < count)%nat -> 0 + Z.of_nat k * samplingRate < srcSize - 1.
Proof using HsrcSize Hrate.
  unfold nbSamples. intros Hk.
  assert (Z.of_nat k <= (srcSize - 2) / samplingRate) by lia.
  assert (samplingRate * ((srcSize - 2) / samplingRate) <= srcSize - 2)
    by (apply Z.mul_div_le; lia).
  nia.
Qed.

Lemma nbSamples_outside : srcSize - 1 <= 0 + Z.of_nat count * samplingRate.
Proof using HsrcSize Hrate.
  unfold nbSamples.
  assert (0 <= (srcSize - 2) / samplingRate) by (apply Z.div_pos; lia).
  assert (srcSize - 2 < samplingRate * Z.succ ((srcSize - 2) / samplingRate))
    by (apply Z.mul_succ_div_gt; lia).
  rewrite Z2Nat.id by lia. lia.
Qed.

Lemma nbSamples_nowrap : 0 + Z.of_nat count * samplingRate < 2 ^ 64.
Proof using HsrcSize Hrate Hnowrap.
  unfold nbSamples.
  assert (0 <= (srcSize - 2) / samplingRate) by (apply Z.div_pos; lia).
  assert (samplingRate * ((srcSize - 2) / samplingRate) <= srcSize - 2)
    by (apply Z.mul_div_le; lia).
  rewrite Z2Nat.id by lia. lia.
Qed.

(** The loop of the recorder terminates within its fuel and runs its body
    once at each of the offsets [0, rate, 2 rate, ...] below [srcSize - 1]. *)
Lemma addEvents_loop {St : Type} (body : Z -> St -> St) (s : St) :
  let limit := u64 (srcSize - HASHLENGTH + 1) in
  for_stride (S (Z.to_nat limit)) 0 limit samplingRate body s
  = Some (fold_left (fun s n => body n s) (offsets count 0 samplingRate) s).
Proof using HsrcSize Hrate Hnowrap.
  unfold HASHLENGTH. rewrite u64_small by lia. cbv zeta.
  replace (srcSize - 2 + 1) with (srcSize - 1) by lia.
  apply for_stride_offsets; try lia.
  - pose proof nbSamples_pos. lia.
  - apply nbSamples_nowrap.
  - apply nbSamples_inside.
  - apply nbSamples_outside.
Qed.

Lemma addEvents_iterations_eq :
  addEvents_iterations srcSize samplingRate = Some (nbSamples srcSize samplingRate).
Proof using HsrcSize Hrate Hnowrap.
  unfold addEvents_iterations. rewrite addEvents_loop. f_equal.
  assert (Hfold : forall l c, fold_left (fun (s : Z) (_ : Z) => s + 1) l c
                              = c + Z.of_nat (length l)).
  { induction l as [|x l IH]; intros c; simpl; [lia|]. rewrite IH. lia. }
  rewrite Hfold, length_offsets. pose proof nbSamples_pos. lia.
Qed.

Lemma addEvents_generic_eq fp m src hashLog :
  addEvents_generic fp m src srcSize samplingRate hashLog
  = Some (mkFingerprint
            (add_hashes (sampled m src samplingRate hashLog count) (events fp))
            (u64 (nbEvents fp + (srcSize - 1) / samplingRate))).
Proof using HsrcSize Hrate Hnowrap.
  unfold addEvents_generic. cbv zeta. rewrite addEvents_loop.
  unfold HASHLENGTH. rewrite (u64_small (srcSize - 2 + 1)) by lia.
  replace (srcSize - 2 + 1) with (srcSize - 1) by lia.
  do 2 f_equal. unfold add_hashes, sampled.
  generalize (events fp) as a. generalize (offsets count 0 samplingRate) as l.
  induction l as [|n l IH]; intros a; simpl; [reflexivity|]. apply IH.
Qed.

Lemma recordFingerprint_generic_eq fp m src hashLog :
  recordFingerprint_generic fp m src srcSize samplingRate hashLog
  = Some (mkFingerprint
            (add_hashes (sampled m src samplingRate hashLog count)
               (memset_events (events fp) (Z.shiftl 1 hashLog)))
            ((srcSize - 1) / samplingRate)).
Proof using HsrcSize Hrate Hnowrap.
  unfold recordFingerprint_generic. cbv zeta. rewrite addEvents_generic_eq.
  simpl. do 2 f_equal. apply u64_small.
  assert (0 <= (srcSize - 1) / samplingRate) by (apply Z.div_pos; lia).
  assert ((srcSize - 1) / samplingRate <= srcSize - 1)
    by (apply Z.div_le_upper_bound; nia).
  lia.
Qed.

Lemma length_sampled m src hashLog : length (sampled m src samplingRate hashLog count) = count.
Proof using Type. unfold sampled. rewrite length_fmap. apply length_offsets. Qed.

Lemma sampled_range m src hashLog :
  0 <= hashLog <= 32 ->
  Forall (fun h => 0 <= h < Z.of_nat (Z.to_nat (Z.shiftl 1 hashLog)))
         (sampled m src samplingRate hashLog count).
Proof using Type.
  intros Hh. unfold sampled. apply Forall_fmap, Forall_forall. intros n _. simpl.
  rewrite Z.shiftl_1_l, Z2Nat.id by (apply Z.pow_nonneg; lia).
  apply hash2_range. assumption.
Qed.

End Recorder.

(** What one recording pass leaves in the fingerprint: the total is the
    quotient [(srcSize - 1) / rate], the bucket counts sum up to the number of
    rounds of the loop. *)
Lemma recordFingerprint_generic_total fp m src srcSize samplingRate hashLog :
  2 <= srcSize -> 1 <= samplingRate -> srcSize + samplingRate <= 2 ^ 64 ->
  srcSize <= 2 ^ 32 -> 0 <= hashLog <= 32 ->
  exists fp',
    recordFingerprint_generic fp m src srcSize samplingRate hashLog = Some fp'
    /\ nbEvents fp' = (srcSize - 1) / samplingRate
    /\ sum_counts fp' hashLog = nbSamples srcSize samplingRate.
Proof.
  intros Hsz Hrate Hwrap Hsmall Hlog.
  eexists. split; [apply recordFingerprint_generic_eq; assumption|].
  split; [reflexivity|].
  unfold sum_counts. cbn [events].
  pose proof (nbSamples_pos srcSize samplingRate Hsz Hrate) as Hc.
  rewrite <- Z.shiftl_1_l.
  set (N := Z.to_nat (Z.shiftl 1 hashLog)).
  assert (Hzero : Zsum_upto N (ev (memset_events (events fp) (Z.shiftl 1 hashLog))) = 0).
  { apply Zsum_upto_zero. intros n Hn. apply ev_memset_events. assumption. }
  rewrite Zsum_ev_add_hashes.
  - rewrite Hzero, length_sampled. lia.
  - apply sampled_range. assumption.
  - apply length_memset_events.
  - intros i Hi. rewrite ev_memset_events by assumption. lia.
  - rewrite Hzero, length_sampled. lia.
Qed.

(** C3: recording one 8 KiB chunk with stride 5 (level 2) leaves 1638 in the
    total although 1639 bucket increments were made, and with stride 11
    (level 1) 744 although 745 were made, whatever the bytes are: after these
    passes the total is not the sum of the bucket counts. *)
Theorem C3_total_below_sum_of_counts fp m src :
  (exists fp', ZSTD_recordFingerprint_5 fp m src CHUNKSIZE = Some fp'
               /\ nbEvents fp' = 1638 /\ sum_counts fp' 10 = 1639)
  /\ (exists fp', ZSTD_recordFingerprint_11 fp m src CHUNKSIZE = Some fp'
                  /\ nbEvents fp' = 744 /\ sum_counts fp' 9 = 745).
Proof.
  split.
  - destruct (recordFingerprint_generic_total fp m src CHUNKSIZE 5 10)
      as (fp' & Hrec & Hnb & Hsum); rewrite ?CHUNKSIZE_eq; try lia.
    exists fp'. split; [exact Hrec|]. rewrite Hnb, Hsum. split; reflexivity.
  - destruct (recordFingerprint_generic_total fp m src CHUNKSIZE 11 9)
      as (fp' & Hrec & Hnb & Hsum); rewrite ?CHUNKSIZE_eq; try lia.
    exists fp'. split; [exact Hrec|]. rewrite Hnb, Hsum. split; reflexivity.
Qed.

(** C4, as amended: for [srcSize >= 2] and a stride [rate >= 1] (the counter
    not wrapping), the recording loop over the offsets 0, rate, 2 rate, ... up
    to [srcSize - 2] runs exactly [(srcSize - 2) / rate + 1] rounds, and when
    the stride divides [srcSize - 1], as stride 1 does, the recorded total is
    exactly that number. *)
Theorem C4_samples_recorded fp m src srcSize samplingRate hashLog :
  2 <= srcSize -> 1 <= samplingRate -> srcSize + samplingRate <= 2 ^ 64 ->
  addEvents_iterations srcSize samplingRate = Some ((srcSize - 2) / samplingRate + 1)
  /\ ((srcSize - 1) mod samplingRate = 0 ->
      exists fp',
        recordFingerprint_generic fp m src srcSize samplingRate hashLog = Some fp'
        /\ nbEvents fp' = (srcSize - 2) / samplingRate + 1).
Proof.
  intros Hsz Hrate Hwrap. split.
  - apply addEvents_iterations_eq; assumption.
  - intros Hdiv. eexists. split; [apply recordFingerprint_generic_eq; assumption|].
    cbn [nbEvents].
    apply Z.div_exact in Hdiv; [|lia].
    set (q := (srcSize - 1) / samplingRate) in *.
    replace (srcSize - 2) with ((q - 1) * samplingRate + (samplingRate - 1)) by lia.
    rewrite Z.div_add_l, Z.div_small by lia. lia.
Qed.

Lemma C4_samples_recorded_witness :
  addEvents_iterations 8192 1 = Some 8191
  /\ exists fp',
       recordFingerprint_generic zeroFingerprint (fun _ => x00) 0 8192 1 10 = Some fp'
       /\ nbEvents fp' = 8191.
Proof.
  destruct (C4_samples_recorded zeroFingerprint (fun _ => x00) 0 8192 1 10)
    as [Hiter Hnb]; [lia | lia | lia |].
  split; [exact Hiter|]. apply Hnb. reflexivity.
Defined.

(** C4 as stated fails for stride 1 on an 8 KiB chunk: the loop runs 8191
    rounds and the total is 8191, not [(8192 - 1) / 1 + 1 = 8192]. *)
Lemma C4_counterexample :
  exists fp',
    recordFingerprint_generic zeroFingerprint (fun _ => x00) 0 8192 1 10 = Some fp'
    /\ nbEvents fp' <> (8192 - 1) / 1 + 1
    /\ addEvents_iterations 8192 1 <> Some ((8192 - 1) / 1 + 1).
Proof.
  eexists. split; [apply recordFingerprint_generic_eq; lia|].
  split.
  - cbn [nbEvents]. rewrite !Z.div_1_r. lia.
  - rewrite addEvents_iterations_eq by lia. unfold nbSamples.
    rewrite !Z.div_1_r. intros [=].
Qed.

(** *** Comparator *)

(** C9: the distance between two fingerprints does not depend on their order,
    for every [hashLog] and also when the 64-bit arithmetic wraps. *)
Theorem C9_fpDistance_symmetric (A B : Fingerprint) (hashLog : Z) :
  fpDistance A B hashLog = fpDistance B A hashLog.
Proof.
  unfold fpDistance. apply for_upto_ext. intros n d _.
  f_equal. f_equal. apply abs64_s64_opp.
Qed.

Lemma Zsum_upto_mono (c1 c2 : nat) f :
  (c1 <= c2)%nat -> (forall n, (n < c2)%nat -> 0 <= f n) ->
  Zsum_upto c1 f <= Zsum_upto c2 f.
Proof.
  induction c2 as [|c IH]; intros Hle Hf.
  - replace c1 with O by lia. lia.
  - destruct (decide (c1 = S c)) as [->|Hne]; [lia|].
    rewrite Zsum_upto_S. specialize (Hf c ltac:(lia)) as Hc.
    assert (Zsum_upto c1 f <= Zsum_upto c f) by (apply IH; [|intros; apply Hf]; lia).
    lia.
Qed.

Lemma bucket_exact_term ref cand b :
  0 < nbEvents ref < 2 ^ 63 -> 0 < nbEvents cand < 2 ^ 63 ->
  bucket_exact ref cand b = true ->
  abs64 (s64 (s64 (ev (events ref) b * s64 (nbEvents cand))
              - s64 (ev (events cand) b * s64 (nbEvents ref))))
  = Z.abs (ev (events ref) b * nbEvents cand - ev (events cand) b * nbEvents ref).
Proof.
  intros Hr Hc Hb. unfold bucket_exact in Hb.
  repeat (apply andb_prop in Hb as [Hb ?]).
  rewrite (s64_small (nbEvents cand)), (s64_small (nbEvents ref)) by lia.
  assert (0 <= ev (events ref) b * nbEvents cand) by nia.
  assert (0 <= ev (events cand) b * nbEvents ref) by nia.
  rewrite (s64_small (ev (events ref) b * nbEvents cand)) by lia.
  rewrite (s64_small (ev (events cand) b * nbEvents ref)) by lia.
  rewrite s64_small by lia. apply abs64_small. lia.
Qed.

Lemma fpDistance_exact ref cand penalty hashLog :
  0 < nbEvents ref -> 0 < nbEvents cand -> 0 <= penalty ->
  comparison_exact ref cand penalty hashLog = true ->
  fpDistance ref cand hashLog = spec_distance ref cand hashLog.
Proof.
  intros Hr Hc Hp Hx. unfold comparison_exact in Hx.
  repeat (apply andb_prop in Hx as [Hx ?]).
  unfold HASHLOG_MAX in *.
  assert (Hr63 : nbEvents ref < 2 ^ 63) by nia.
  assert (Hc63 : nbEvents cand < 2 ^ 63) by nia.
  assert (Hpow : 0 < 2 ^ hashLog <= 2 ^ 10).
  { split; [apply Z.pow_pos_nonneg; lia|apply Z.pow_le_mono_r; lia]. }
  unfold fpDistance, spec_distance in *.
  rewrite Z.shiftl_1_l, u64_small by lia.
  set (N := Z.to_nat (2 ^ hashLog)) in *.
  set (f := fun b => Z.abs (ev (events ref) b * nbEvents cand
                            - ev (events cand) b * nbEvents ref)) in *.
  assert (Hall : forall b, (b < N)%nat -> bucket_exact ref cand b = true).
  { intros b Hb. rewrite forallb_forall in H2. apply H2. apply in_seq. lia. }
  assert (Hpart : forall c, (c <= N)%nat ->
            for_upto c
              (fun n distance =>
                 u64 (distance +
                      abs64 (s64 (s64 (ev (events ref) n * s64 (nbEvents cand))
                                  - s64 (ev (events cand) n * s64 (nbEvents ref))))))
              0 = Zsum_upto c f).
  { induction c as [|c IH]; intros Hle; [reflexivity|].
    rewrite for_upto_S, Zsum_upto_S, IH by lia.
    rewrite bucket_exact_term by (try apply Hall; lia).
    fold (f c). apply u64_small.
    assert (Zsum_upto (S c) f <= Zsum_upto N f)
      by (apply Zsum_upto_mono; [lia|intros; subst f; simpl; lia]).
    assert (0 <= Zsum_upto (S c) f)
      by (apply Zsum_upto_nonneg; intros; subst f; simpl; lia).
    rewrite Zsum_upto_S in *. lia. }
  apply Hpart. lia.
Qed.

(** C2, as amended: for fingerprints with positive totals and a penalty
    [>= 0] such that no intermediate result of the comparison leaves its C
    type, the comparator answers "too different" exactly when the
    cross-normalized L1 distance is at least
    [(ref.total * cand.total) * (14 + penalty) / 16], in exact integers. *)
Theorem C2_compareFingerprints_exact ref cand penalty hashLog :
  0 < nbEvents ref -> 0 < nbEvents cand -> 0 <= penalty ->
  comparison_exact ref cand penalty hashLog = true ->
  (compareFingerprints ref cand penalty hashLog = true
   <-> spec_threshold ref cand penalty <= spec_distance ref cand hashLog).
Proof.
  intros Hr Hc Hp Hx.
  unfold compareFingerprints. cbv zeta.
  rewrite (fpDistance_exact ref cand penalty hashLog) by assumption.
  unfold comparison_exact in Hx.
  repeat (apply andb_prop in Hx as [Hx ?]).
  unfold INT_MAX in *.
  change THRESHOLD_BASE with 14. change THRESHOLD_PENALTY_RATE with 16.
  assert (nbEvents ref * nbEvents cand < 2 ^ 64) by nia.
  assert (nbEvents ref < 2 ^ 64) by nia.
  assert (nbEvents cand < 2 ^ 64) by nia.
  rewrite (u64_small (nbEvents ref)), (u64_small (nbEvents cand)) by lia.
  rewrite (u64_small (nbEvents ref * nbEvents cand)) by nia.
  rewrite s32_small by lia.
  rewrite (u64_small (14 + penalty)) by lia.
  rewrite u64_small by nia.
  unfold spec_threshold. apply Z.leb_le.
Qed.

Lemma C2_compareFingerprints_exact_witness :
  compareFingerprints fp_three fp_two 3 10 = true
  <-> spec_threshold fp_three fp_two 3 <= spec_distance fp_three fp_two 10.
Proof.
  apply (C2_compareFingerprints_exact fp_three fp_two 3 10);
    [simpl; lia | simpl; lia | lia | vm_compute; reflexivity].
Defined.

(** C2 as stated fails when the product of the totals wraps: a fingerprint of
    [2 ^ 32] samples, [2 ^ 22] in each bucket, is at distance 0 from itself
    and the exact threshold is [2 ^ 64 * 14 / 16], yet the comparator answers
    "too different", its 64-bit threshold being 0.  No signed operation
    overflows on the way. *)
Lemma C2_counterexample :
  0 < nbEvents fp_wide
  /\ sum_counts fp_wide 10 = nbEvents fp_wide
  /\ compareFingerprints fp_wide fp_wide 0 10 = true
  /\ ~ (spec_threshold fp_wide fp_wide 0 <= spec_distance fp_wide fp_wide 10).
Proof.
  split; [simpl; lia|]. split; [vm_compute; reflexivity|].
  split; [vm_compute; reflexivity|].
  vm_compute. intros H. apply H. reflexivity.
Qed.

(** *** Accumulator *)

Section InsertLoop.

Variable g : nat -> Z -> Z.

Local Abbreviation body := (fun (n : nat) (a : list Z) => <[n := g n (ev a n)]> a).

Lemma length_for_upto_insert count (a : list Z) :
  length (for_upto count body a) = length a.
Proof using Type.
  induction count as [|c IH]; [reflexivity|].
  rewrite for_upto_S. cbv beta. rewrite length_insert. exact IH.
Qed.

(** After the loop each of the first [count] cells holds its new value and
    the others are untouched. *)
Lemma lookup_for_upto_insert count (a : list Z) (i : nat) :
  (count <= length a)%nat ->
  for_upto count body a !! i
  = if decide (i < count)%nat then g i <$> a !! i else a !! i.
Proof using Type.
  induction count as [|c IH]; intros Hlen; [reflexivity|].
  rewrite for_upto_S. specialize (IH ltac:(lia)).
  set (A := for_upto c body a) in *.
  assert (HlenA : length A = length a) by apply length_for_upto_insert.
  cbv beta.
  rewrite list_lookup_insert.
  destruct (decide (c = i /\ (c < length A)%nat)) as [[-> _]|Hne].
  - rewrite decide_True by lia.
    assert (HA : A !! i = a !! i) by (rewrite IH, decide_False by lia; reflexivity).
    unfold ev. rewrite HA.
    destruct (a !! i) as [x|] eqn:Hx; [reflexivity|].
    apply lookup_ge_None in Hx. lia.
  - rewrite IH. repeat case_decide; try reflexivity; lia.
Qed.

End InsertLoop.

Lemma events_mergeEvents acc newfp (i : nat) :
  (Z.to_nat HASHTABLESIZE <= length (events acc))%nat ->
  events (mergeEvents acc newfp) !! i
  = if decide (i < Z.to_nat HASHTABLESIZE)%nat
    then (fun x => u32 (x + ev (events newfp) i)) <$> events acc !! i
    else events acc !! i.
Proof.
  intros Hlen. unfold mergeEvents. cbn [events].
  apply (lookup_for_upto_insert (fun n x => u32 (x + ev (events newfp) n))).
  assumption.
Qed.

Lemma length_mergeEvents acc newfp :
  length (events (mergeEvents acc newfp)) = length (events acc).
Proof.
  unfold mergeEvents. cbn [events].
  apply (length_for_upto_insert (fun n x => u32 (x + ev (events newfp) n))).
Qed.

Lemma nbEvents_mergeEvents acc newfp :
  nbEvents (mergeEvents acc newfp) = u64 (nbEvents acc + nbEvents newfp).
Proof. reflexivity. Qed.

Lemma Fingerprint_eq (a b : Fingerprint) :
  events a = events b -> nbEvents a = nbEvents b -> a = b.
Proof. destruct a, b. simpl. intros -> ->. reflexivity. Qed.

(** Merging one more copy of [fp] into [k] copies gives [k + 1] copies. *)
Lemma mergeEvents_scale k fp :
  length (events fp) = Z.to_nat HASHTABLESIZE ->
  Forall (fun x => 0 <= x /\ (k + 1) * x < 2 ^ 32) (events fp) ->
  0 <= k -> 0 <= nbEvents fp -> (k + 1) * nbEvents fp < 2 ^ 64 ->
  mergeEvents (scale k fp) fp = scale (k + 1) fp.
Proof.
  intros Hlen Hall Hk Hnb Hnb'.
  assert (Hev : events (mergeEvents (scale k fp) fp) = events (scale (k + 1) fp)).
  { apply list_eq. intros i.
    rewrite events_mergeEvents by (cbn [scale events]; rewrite length_fmap; lia).
    cbn [scale events]. rewrite !list_lookup_fmap.
    destruct (events fp !! i) as [x|] eqn:Hx.
    - apply lookup_lt_Some in Hx as Hi. rewrite decide_True by lia.
      rewrite (ev_lookup _ _ _ Hx). simpl. f_equal.
      rewrite Forall_lookup in Hall. specialize (Hall i x Hx).
      assert (0 <= k * x) by (apply Z.mul_nonneg_nonneg; lia).
      rewrite u32_small; lia.
    - case_decide; reflexivity. }
  apply Fingerprint_eq; [exact Hev|].
  rewrite nbEvents_mergeEvents. unfold scale. cbn [nbEvents].
  assert (0 <= k * nbEvents fp) by (apply Z.mul_nonneg_nonneg; lia).
  rewrite u64_small; lia.
Qed.

(** *** Recording one chunk *)

Lemma elem_of_offsets_inv count n step k :
  k ∈ offsets count n step ->
  exists j : nat, (j < count)%nat /\ k = n + Z.of_nat j * step.
Proof.
  revert n. induction count as [|c IH]; intros n Hin; simpl in Hin.
  - inversion Hin.
  - apply elem_of_cons in Hin as [-> | Hin].
    + exists O. split; lia.
    + apply IH in Hin as (j & Hj & ->). exists (S j). split; lia.
Qed.

Lemma records_fs_unfold splitStrat fp m src srcSize :
  records_fs splitStrat fp m src srcSize
  = recordFingerprint_generic fp m src srcSize
      (samplingRate_of splitStrat) (hashParams splitStrat).
Proof. destruct splitStrat; reflexivity. Qed.

Lemma samplingRate_of_range splitStrat : 1 <= samplingRate_of splitStrat <= 11.
Proof. destruct splitStrat; simpl; lia. Qed.

Lemma hashParams_range splitStrat : 9 <= hashParams splitStrat <= 10.
Proof. destruct splitStrat; simpl; lia. Qed.

(** Recording a chunk always succeeds. *)
Lemma records_fs_chunk splitStrat fp m src :
  records_fs splitStrat fp m src CHUNKSIZE = Some (recorded splitStrat fp m src).
Proof.
  rewrite records_fs_unfold. pose proof (samplingRate_of_range splitStrat).
  apply recordFingerprint_generic_eq; rewrite ?CHUNKSIZE_eq; lia.
Qed.

Lemma nbEvents_recorded splitStrat fp m src :
  nbEvents (recorded splitStrat fp m src) = (CHUNKSIZE - 1) / samplingRate_of splitStrat.
Proof. reflexivity. Qed.

Lemma nbEvents_recorded_range splitStrat fp m src :
  744 <= nbEvents (recorded splitStrat fp m src) <= 8191.
Proof. rewrite nbEvents_recorded. destruct splitStrat; vm_compute; split; discriminate. Qed.

Lemma nbSamples_chunk_range splitStrat :
  1 <= nbSamples CHUNKSIZE (samplingRate_of splitStrat) <= 8191.
Proof. destruct splitStrat; vm_compute; split; discriminate. Qed.

Lemma shiftl_hashParams splitStrat :
  (Z.to_nat (Z.shiftl 1 (hashParams splitStrat)) <= Z.to_nat HASHTABLESIZE)%nat.
Proof. destruct splitStrat; vm_compute; lia. Qed.

(** The counters beyond the cleared range pass through a recording. *)
Lemma drop_recorded splitStrat fp m src :
  drop (Z.to_nat (Z.shiftl 1 (hashParams splitStrat)))
       (events (recorded splitStrat fp m src))
  = drop (Z.to_nat (Z.shiftl 1 (hashParams splitStrat))) (events fp).
Proof.
  unfold recorded. cbn [events].
  rewrite drop_add_hashes, drop_memset_events; [reflexivity|].
  apply sampled_range. pose proof (hashParams_range splitStrat). lia.
Qed.

(** A recording depends on the old counters only beyond the cleared range. *)
Lemma recorded_drop splitStrat fp fp' m src :
  drop (Z.to_nat (Z.shiftl 1 (hashParams splitStrat))) (events fp)
  = drop (Z.to_nat (Z.shiftl 1 (hashParams splitStrat))) (events fp') ->
  recorded splitStrat fp m src = recorded splitStrat fp' m src.
Proof.
  intros Hd. unfold recorded.
  rewrite (memset_events_drop _ _ _ Hd). reflexivity.
Qed.

(** A recording depends on the memory only through the buckets of the
    sampled windows. *)
Lemma recorded_ext splitStrat fp m src m' src' :
  (forall n, 0 <= n < CHUNKSIZE - 1 -> n mod samplingRate_of splitStrat = 0 ->
             hash2 m (src + n) (hashParams splitStrat)
             = hash2 m' (src' + n) (hashParams splitStrat)) ->
  recorded splitStrat fp m src = recorded splitStrat fp m' src'.
Proof.
  intros Hh. unfold recorded. do 2 f_equal.
  unfold sampled. apply list_fmap_ext. intros i n Hn.
  apply list_elem_of_lookup_2, elem_of_offsets_inv in Hn as (j & Hj & ->).
  pose proof (samplingRate_of_range splitStrat) as Hr.
  apply Hh.
  - pose proof (nbSamples_inside CHUNKSIZE (samplingRate_of splitStrat)
                  ltac:(rewrite CHUNKSIZE_eq; lia) ltac:(lia) j Hj).
    split; [|lia]. apply Z.add_nonneg_nonneg; [lia|]. apply Z.mul_nonneg_nonneg; lia.
  - rewrite Z.add_0_l. apply Z.mod_mul. lia.
Qed.

Lemma length_zeroFingerprint :
  length (events zeroFingerprint) = Z.to_nat HASHTABLESIZE.
Proof. unfold zeroFingerprint. cbn [events]. apply length_replicate. Qed.

Lemma length_chunk_fp splitStrat m src :
  length (events (chunk_fp splitStrat m src)) = Z.to_nat HASHTABLESIZE.
Proof.
  unfold chunk_fp, recorded. cbn [events].
  rewrite length_add_hashes, length_memset_events_eq.
  - apply length_zeroFingerprint.
  - rewrite length_zeroFingerprint. apply shiftl_hashParams.
Qed.

Lemma ev_zero_memset count (i : nat) :
  ev (memset_events (events zeroFingerprint) count) i = 0.
Proof.
  unfold ev, memset_events, zeroFingerprint. cbn [events].
  destruct (_ !! i) as [x|] eqn:Hx; [|reflexivity]. simpl.
  apply lookup_app_Some in Hx as [Hx | [_ Hx]].
  - apply lookup_replicate in Hx. tauto.
  - rewrite lookup_drop in Hx. apply lookup_replicate in Hx. tauto.
Qed.

(** No bucket of a chunk's fingerprint exceeds the number of samples. *)
Lemma chunk_fp_bound splitStrat m src :
  Forall (fun x => 0 <= x <= 8191) (events (chunk_fp splitStrat m src)).
Proof.
  apply Forall_lookup. intros i x Hx. apply ev_lookup in Hx. subst x.
  unfold chunk_fp, recorded. cbn [events].
  pose proof (ev_add_hashes_bound
    (sampled m src (samplingRate_of splitStrat) (hashParams splitStrat)
       (Z.to_nat (nbSamples CHUNKSIZE (samplingRate_of splitStrat))))
    (memset_events (events zeroFingerprint) (Z.shiftl 1 (hashParams splitStrat))) i) as Hb.
  rewrite ev_zero_memset, length_sampled in Hb.
  pose proof (nbSamples_chunk_range splitStrat). lia.
Qed.

(** *** Chunk scanner *)

Lemma BLOCKSIZE_eq : BLOCKSIZE = 131072.
Proof. reflexivity. Qed.

(** The loop body either returns the current position or moves on by one
    chunk, lowering a positive penalty by one. *)
Lemma scan_body_eq m p splitStrat st :
  scan_body m p splitStrat st
  = let cand := recorded splitStrat (newEvents (fpstats st)) m (p + pos st) in
    let past := pastEvents (fpstats st) in
    if compareFingerprints past cand (penalty st) (hashParams splitStrat)
    then Some (Return (pos st))
    else Some (Next (mkScan (u64 (pos st + CHUNKSIZE))
                            (if penalty st >? 0 then s32 (penalty st - 1) else penalty st)
                            (mkFPStats (mergeEvents past cand) cand))).
Proof. unfold scan_body. rewrite records_fs_chunk. reflexivity. Qed.

Lemma scan_body_cases m p splitStrat st :
  scan_body m p splitStrat st = Some (Return (pos st))
  \/ exists st',
       scan_body m p splitStrat st = Some (Next st')
       /\ pos st' = u64 (pos st + CHUNKSIZE)
       /\ penalty st' = (if penalty st >? 0 then s32 (penalty st - 1) else penalty st).
Proof.
  rewrite scan_body_eq. cbv zeta.
  destruct (compareFingerprints _ _ _ _); [left; reflexivity|].
  right. eexists. split; [reflexivity|]. split; reflexivity.
Qed.

Lemma scan_init_eq m blockStart splitStrat workspace :
  scan_init m blockStart splitStrat workspace
  = Some (mkScan CHUNKSIZE THRESHOLD_PENALTY
            (mkFPStats (chunk_fp splitStrat m blockStart) zeroFingerprint)).
Proof. unfold scan_init. rewrite records_fs_chunk. reflexivity. Qed.

(** From a position [k] chunks into a 128 KiB block, with fuel for the
    remaining chunks, the loop returns a later chunk boundary that its test
    admits, or the block size. *)
Lemma scan_loop_range m p splitStrat :
  forall (fuel : nat) (st : scan_state) (k : Z),
    pos st = k * CHUNKSIZE -> 1 <= k <= 16 -> 17 - k <= Z.of_nat fuel ->
    exists r,
      scan_loop fuel m p BLOCKSIZE splitStrat st = Some r
      /\ (r = BLOCKSIZE \/ exists j, k <= j <= 15 /\ r = j * CHUNKSIZE).
Proof.
  induction fuel as [|fuel IH]; intros st k Hpos Hk Hfuel; [lia|].
  simpl. rewrite Hpos, BLOCKSIZE_eq, CHUNKSIZE_eq.
  rewrite u64_small by lia.
  destruct (Z.leb_spec (k * 8192) (131072 - 8192)) as [Hle|Hgt].
  - destruct (scan_body_cases m p splitStrat st) as [Hret | (st' & Hnext & Hpos' & _)].
    + rewrite Hret. exists (pos st). split; [reflexivity|].
      right. exists k. rewrite Hpos, CHUNKSIZE_eq. lia.
    + rewrite Hnext.
      rewrite Hpos, CHUNKSIZE_eq, u64_small in Hpos' by lia.
      destruct (IH st' (k + 1)) as (r & Hr & Hcases);
        rewrite ?BLOCKSIZE_eq, ?CHUNKSIZE_eq in *; try lia.
      exists r. split; [exact Hr|].
      destruct Hcases as [-> | (j & Hj & ->)]; [left; reflexivity|].
      right. exists j. lia.
  - exists 131072. split; [reflexivity|]. left. reflexivity.
Qed.

Lemma ZSTD_splitBlock_range m blockStart splitStrat workspace wkspSize :
  exists r,
    ZSTD_splitBlock m blockStart BLOCKSIZE splitStrat workspace wkspSize = Some r
    /\ (r = BLOCKSIZE \/ exists j, 1 <= j <= 15 /\ r = j * CHUNKSIZE).
Proof.
  unfold ZSTD_splitBlock, ZSTD_splitBlock_byChunks.
  rewrite scan_init_eq.
  apply scan_loop_range; cbn [pos]; [lia|lia|].
  rewrite BLOCKSIZE_eq, CHUNKSIZE_eq. vm_compute. discriminate.
Qed.

(** C1: on a 128 KiB block every strategy returns, whatever the workspace
    held, and the offset is one of [CHUNKSIZE, 2 CHUNKSIZE, ...,
    blockSize - CHUNKSIZE] or [blockSize]: a multiple of [CHUNKSIZE] that is
    neither 0 nor inside the first chunk. *)
Theorem C1_split_point_range m blockStart splitStrat workspace wkspSize :
  exists r,
    ZSTD_splitBlock m blockStart BLOCKSIZE splitStrat workspace wkspSize = Some r
    /\ ((exists j, 1 <= j <= BLOCKSIZE / CHUNKSIZE - 1 /\ r = j * CHUNKSIZE)
        \/ r = BLOCKSIZE)
    /\ r mod CHUNKSIZE = 0
    /\ CHUNKSIZE <= r <= BLOCKSIZE.
Proof.
  destruct (ZSTD_splitBlock_range m blockStart splitStrat workspace wkspSize)
    as (r & Hr & Hcases).
  exists r. split; [exact Hr|].
  rewrite BLOCKSIZE_eq, CHUNKSIZE_eq in *.
  change (131072 / 8192 - 1) with 15.
  destruct Hcases as [-> | (j & Hj & ->)].
  - split; [right; reflexivity|]. split; [reflexivity|lia].
  - split; [left; exists j; lia|]. split; [apply Z.mod_mul; lia|lia].
Qed.

(** C6, as amended: a split point, when the driver finds one on a 128 KiB
    block, is a multiple of [CHUNKSIZE] between [CHUNKSIZE] and
    [blockSize - CHUNKSIZE], both bounds included. *)
Theorem C6_split_found_range m blockStart splitStrat workspace wkspSize r :
  ZSTD_splitBlock m blockStart BLOCKSIZE splitStrat workspace wkspSize = Some r ->
  r <> BLOCKSIZE ->
  r mod CHUNKSIZE = 0 /\ CHUNKSIZE <= r <= BLOCKSIZE - CHUNKSIZE.
Proof.
  intros Hr Hne.
  destruct (ZSTD_splitBlock_range m blockStart splitStrat workspace wkspSize)
    as (r' & Hr' & Hcases).
  rewrite Hr in Hr'. injection Hr' as <-.
  destruct Hcases as [-> | (j & Hj & ->)]; [congruence|].
  rewrite BLOCKSIZE_eq, CHUNKSIZE_eq. split; [apply Z.mod_mul; lia|lia].
Qed.

Lemma scan_steps_penalty m blockStart blockSize splitStrat st d st' :
  scan_steps m blockStart blockSize splitStrat st d st' ->
  forall a : nat,
    penalty st = Z.max 0 (THRESHOLD_PENALTY - Z.of_nat a) ->
    penalty st' = Z.max 0 (THRESHOLD_PENALTY - Z.of_nat (a + d)).
Proof.
  unfold THRESHOLD_PENALTY.
  induction 1 as [st | st st1 st' d Hguard Hbody Hsteps IH]; intros a Hpen.
  - rewrite Nat.add_0_r. exact Hpen.
  - destruct (scan_body_cases m blockStart splitStrat st)
      as [Hret | (st'' & Hnext & _ & Hpen1)]; [congruence|].
    rewrite Hbody in Hnext. injection Hnext as <-.
    replace (a + S d)%nat with (S a + d)%nat by lia.
    apply IH. rewrite Hpen1.
    destruct (Z.gtb_spec (penalty st) 0).
    + rewrite s32_small by lia. lia.
    + lia.
Qed.

(** The loop function follows [scan_steps]: it gives the same result from
    every state the steps pass through. *)
Lemma scan_loop_steps m blockStart blockSize splitStrat st d st' :
  scan_steps m blockStart blockSize splitStrat st d st' ->
  forall fuel : nat,
    scan_loop (d + fuel) m blockStart blockSize splitStrat st
    = scan_loop fuel m blockStart blockSize splitStrat st'.
Proof.
  induction 1 as [st | st st1 st' d Hguard Hbody Hsteps IH]; intros fuel.
  - reflexivity.
  - simpl. rewrite Hguard, Hbody. apply IH.
Qed.

(** C7: in every state the scan reaches, after [n] accepted comparisons, the
    penalty is [max 0 (3 - n)]: it starts at 3, drops by one per accepted
    comparison while positive, and is 0, never negative, from the third
    accepted comparison on. *)
Theorem C7_penalty_floor m blockStart blockSize splitStrat workspace n st :
  scan_reach m blockStart blockSize splitStrat workspace n st ->
  penalty st = Z.max 0 (THRESHOLD_PENALTY - Z.of_nat n) /\ 0 <= penalty st.
Proof.
  intros (st0 & Hinit & Hsteps).
  rewrite scan_init_eq in Hinit. injection Hinit as <-.
  pose proof (scan_steps_penalty _ _ _ _ _ _ _ Hsteps O eq_refl) as Hpen.
  simpl Nat.add in Hpen. split; [exact Hpen|]. rewrite Hpen. lia.
Qed.

(** Two scans of blocks with the same bytes proceed alike. *)
Lemma scan_loop_ext m1 p1 m2 p2 blockSize splitStrat :
  CHUNKSIZE <= blockSize < 2 ^ 64 ->
  (forall i, 0 <= i < blockSize -> m1 (p1 + i) = m2 (p2 + i)) ->
  forall (fuel : nat) (st : scan_state),
    0 <= pos st ->
    scan_loop fuel m1 p1 blockSize splitStrat st
    = scan_loop fuel m2 p2 blockSize splitStrat st.
Proof.
  intros Hsize Hmem. rewrite CHUNKSIZE_eq in Hsize.
  induction fuel as [|fuel IH]; intros st Hpos; [reflexivity|].
  simpl. rewrite CHUNKSIZE_eq, u64_small by lia.
  destruct (Z.leb_spec (pos st) (blockSize - 8192)) as [Hle|Hgt]; [|reflexivity].
  assert (Hbody : scan_body m1 p1 splitStrat st = scan_body m2 p2 splitStrat st).
  { rewrite !scan_body_eq.
    rewrite (recorded_ext splitStrat _ m1 (p1 + pos st) m2 (p2 + pos st));
      [reflexivity|].
    rewrite CHUNKSIZE_eq. intros n Hn _.
    unfold hash2, MEM_read16, load8.
    rewrite <- !Z.add_assoc. rewrite !Hmem by lia. reflexivity. }
  rewrite Hbody.
  destruct (scan_body_cases m2 p2 splitStrat st) as [-> | (st' & -> & Hpos' & _)];
    [reflexivity|].
  apply IH. rewrite Hpos', CHUNKSIZE_eq, u64_small; lia.
Qed.

(** C8: two calls on blocks with identical bytes, the same block size and
    the same strategy return the same offset, whatever the two workspaces
    held before and whatever sizes were passed for them: [initStats]
    overwrites the workspace before anything in it is read. *)
Theorem C8_deterministic m1 p1 m2 p2 blockSize splitStrat
    (workspace1 workspace2 : FPStats) (wkspSize1 wkspSize2 : Z) :
  CHUNKSIZE <= blockSize < 2 ^ 64 ->
  (forall i, 0 <= i < blockSize -> m1 (p1 + i) = m2 (p2 + i)) ->
  ZSTD_splitBlock m1 p1 blockSize splitStrat workspace1 wkspSize1
  = ZSTD_splitBlock m2 p2 blockSize splitStrat workspace2 wkspSize2.
Proof.
  intros Hsize Hmem.
  unfold ZSTD_splitBlock, ZSTD_splitBlock_byChunks.
  rewrite !scan_init_eq.
  assert (Hfirst : chunk_fp splitStrat m1 p1 = chunk_fp splitStrat m2 p2).
  { unfold chunk_fp. apply recorded_ext. rewrite CHUNKSIZE_eq in *. intros n Hn _.
    unfold hash2, MEM_read16, load8.
    rewrite <- !Z.add_assoc. rewrite !Hmem by lia. reflexivity. }
  rewrite Hfirst.
  apply scan_loop_ext; try assumption.
  cbn [pos]. rewrite CHUNKSIZE_eq. lia.
Qed.

Lemma C8_deterministic_witness :
  ZSTD_splitBlock (fun _ => x00) 4096 BLOCKSIZE split_lvl1 workspace0 8208
  = ZSTD_splitBlock (fun a => if a <? 131072 then x00 else xff) 0 BLOCKSIZE
      split_lvl1 (mkFPStats fp_wide fp_three) 16416.
Proof.
  apply C8_deterministic.
  - rewrite BLOCKSIZE_eq, CHUNKSIZE_eq. lia.
  - intros i Hi. rewrite BLOCKSIZE_eq in Hi. cbv beta.
    destruct (Z.ltb_spec (0 + i) 131072); [reflexivity|lia].
Defined.

(** *** Blocks whose chunks have equal fingerprints *)

Lemma ev_scale k fp (n : nat) : ev (events (scale k fp)) n = k * ev (events fp) n.
Proof.
  unfold ev, scale. cbn [events]. rewrite list_lookup_fmap.
  destruct (events fp !! n); simpl; lia.
Qed.

Lemma scale_1 fp : scale 1 fp = fp.
Proof.
  apply Fingerprint_eq; unfold scale; cbn [events nbEvents]; [|lia].
  induction (events fp) as [|x l IH]; [reflexivity|].
  rewrite fmap_cons, IH. f_equal. lia.
Qed.

Lemma for_upto_fixed {St : Type} (count : nat) (body : nat -> St -> St) (s : St) :
  (forall n, (n < count)%nat -> body n s = s) -> for_upto count body s = s.
Proof.
  induction count as [|c IH]; intros Hb; [reflexivity|].
  rewrite for_upto_S, IH by (intros; apply Hb; lia). apply Hb. lia.
Qed.

(** [k] copies of a fingerprint are at distance 0 from it. *)
Lemma fpDistance_scale k fp hashLog :
  0 <= nbEvents fp < 2 ^ 63 -> 0 <= k * nbEvents fp < 2 ^ 63 ->
  fpDistance (scale k fp) fp hashLog = 0.
Proof.
  intros Hnb Hknb. unfold fpDistance. apply for_upto_fixed. intros n _.
  rewrite ev_scale. unfold scale at 1. cbn [nbEvents].
  rewrite (s64_small (nbEvents fp)), (s64_small (k * nbEvents fp)) by lia.
  replace (k * ev (events fp) n * nbEvents fp)
    with (ev (events fp) n * (k * nbEvents fp)) by lia.
  rewrite Z.sub_diag. reflexivity.
Qed.

Lemma compareFingerprints_scale k fp penalty hashLog :
  1 <= k <= 16 -> 744 <= nbEvents fp <= 8191 -> 0 <= penalty <= 3 ->
  compareFingerprints (scale k fp) fp penalty hashLog = false.
Proof.
  intros Hk Hnb Hp. unfold compareFingerprints. cbv zeta.
  rewrite fpDistance_scale by nia.
  unfold scale. cbn [nbEvents].
  change THRESHOLD_BASE with 14. change THRESHOLD_PENALTY_RATE with 16.
  rewrite s32_small by lia.
  rewrite (u64_small (14 + penalty)) by lia.
  rewrite (u64_small (nbEvents fp)) by lia.
  rewrite (u64_small (k * nbEvents fp)) by nia.
  assert (744 * 744 <= k * nbEvents fp * nbEvents fp <= 16 * 8191 * 8191) by nia.
  rewrite (u64_small (k * nbEvents fp * nbEvents fp)) by lia.
  assert (744 * 744 * 14 <= k * nbEvents fp * nbEvents fp * (14 + penalty)
          <= 16 * 8191 * 8191 * 17) by nia.
  rewrite u64_small by lia.
  apply Z.leb_gt. apply Z.div_str_pos. lia.
Qed.

Section EqualChunks.

Variables (m : memory) (p : Z) (splitStrat : ZSTD_SplitBlock_strategy_e).
Variables (F : Fingerprint) (K : nat).
Hypothesis HK : (K <= 15)%nat.
Hypothesis Hchunks :
  forall j : nat, (j <= K)%nat -> chunk_fp splitStrat m (p + Z.of_nat j * CHUNKSIZE) = F.

Lemma equal_chunks_first : F = chunk_fp splitStrat m p.
Proof.
  rewrite <- (Hchunks O) by lia. f_equal. lia.
Qed.

Lemma scan_inv_init workspace :
  exists st, scan_init m p splitStrat workspace = Some st /\ scan_inv splitStrat F O st.
Proof.
  rewrite scan_init_eq. eexists. split; [reflexivity|].
  unfold scan_inv. cbn [pos penalty fpstats pastEvents newEvents].
  rewrite <- equal_chunks_first, scale_1. repeat split; reflexivity.
Qed.

(** An accepted comparison: the candidate is [F] again and the reference
    gains one copy of it. *)
Lemma scan_inv_step (j : nat) st :
  scan_inv splitStrat F j st -> (j < K)%nat ->
  exists st', scan_body m p splitStrat st = Some (Next st')
              /\ scan_inv splitStrat F (S j) st'.
Proof.
  intros (Hpos & Hpen & Hpast & Hnew) Hj.
  rewrite scan_body_eq. cbv zeta.
  rewrite (recorded_drop _ _ zeroFingerprint _ _ Hnew).
  fold (chunk_fp splitStrat m (p + pos st)).
  replace (p + pos st) with (p + Z.of_nat (S j) * CHUNKSIZE) by lia.
  rewrite (Hchunks (S j)) by lia. rewrite Hpast, Hpen.
  assert (HnbF : 744 <= nbEvents F <= 8191).
  { rewrite equal_chunks_first. apply nbEvents_recorded_range. }
  unfold THRESHOLD_PENALTY.
  rewrite compareFingerprints_scale by lia.
  eexists. split; [reflexivity|].
  unfold scan_inv, THRESHOLD_PENALTY. cbn [pos penalty fpstats pastEvents newEvents].
  rewrite Hpos, CHUNKSIZE_eq. repeat split.
  - rewrite u64_small; lia.
  - destruct (Z.gtb_spec (Z.max 0 (3 - Z.of_nat j)) 0).
    + rewrite s32_small; lia.
    + lia.
  - replace (Z.of_nat (S j) + 1) with (Z.of_nat j + 1 + 1) by lia.
    apply mergeEvents_scale; try nia.
    + rewrite equal_chunks_first. apply length_chunk_fp.
    + rewrite equal_chunks_first.
      eapply Forall_impl; [apply chunk_fp_bound|]. cbv beta. intros x Hx. nia.
  - rewrite equal_chunks_first. apply drop_recorded.
Qed.

(** The loop runs through [d] accepted comparisons when that many more chunks
    have the fingerprint [F]. *)
Lemma scan_loop_equal_chunks blockSize (d : nat) :
  forall (j : nat) st (fuel : nat),
    scan_inv splitStrat F j st -> (j + d <= K)%nat -> blockSize = BLOCKSIZE ->
    exists st',
      scan_inv splitStrat F (j + d) st'
      /\ scan_steps m p blockSize splitStrat st d st'
      /\ scan_loop (d + fuel) m p blockSize splitStrat st
         = scan_loop fuel m p blockSize splitStrat st'.
Proof.
  induction d as [|d IH]; intros j st fuel Hinv Hd ->.
  - exists st. rewrite Nat.add_0_r. split; [exact Hinv|].
    split; [constructor|reflexivity].
  - destruct (scan_inv_step j st Hinv ltac:(lia)) as (st1 & Hbody & Hinv1).
    destruct (IH (S j) st1 fuel Hinv1 ltac:(lia) eq_refl) as (st' & Hinv' & Hreach & Hloop).
    exists st'. replace (j + S d)%nat with (S j + d)%nat by lia.
    split; [exact Hinv'|].
    assert (Hguard : (pos st <=? u64 (BLOCKSIZE - CHUNKSIZE)) = true).
    { destruct Hinv as (Hpos & _). rewrite Hpos, BLOCKSIZE_eq, CHUNKSIZE_eq.
      rewrite u64_small by lia. apply Z.leb_le. lia. }
    split; [econstructor; eassumption|].
    simpl. rewrite Hguard, Hbody. exact Hloop.
Qed.

End EqualChunks.

(** When all sixteen chunks of a 128 KiB block have the same fingerprint,
    every comparison is accepted and the driver reports no split. *)
Lemma equal_chunks_no_split m blockStart splitStrat F workspace wkspSize :
  (forall j : nat, (j <= 15)%nat ->
     chunk_fp splitStrat m (blockStart + Z.of_nat j * CHUNKSIZE) = F) ->
  ZSTD_splitBlock m blockStart BLOCKSIZE splitStrat workspace wkspSize = Some BLOCKSIZE.
Proof.
  intros Hchunks.
  unfold ZSTD_splitBlock, ZSTD_splitBlock_byChunks.
  destruct (scan_inv_init m blockStart splitStrat F 15 ltac:(lia) Hchunks workspace)
    as (st0 & -> & Hinv0).
  destruct (scan_loop_equal_chunks m blockStart splitStrat F 15 ltac:(lia) Hchunks
              BLOCKSIZE 15 O st0 2 Hinv0 ltac:(lia) eq_refl)
    as (st' & (Hpos & _) & _ & Hloop).
  change (S (Z.to_nat (BLOCKSIZE / CHUNKSIZE))) with (15 + 2)%nat.
  rewrite Hloop. simpl. rewrite Hpos, BLOCKSIZE_eq, CHUNKSIZE_eq.
  reflexivity.
Qed.

(** Where the first [K + 1] chunks are filled with one byte value, they all
    have the fingerprint of the first. *)
Lemma uniform_chunk_fp m blockStart (b : Byte.byte) splitStrat (K j : nat) :
  (forall a, blockStart <= a < blockStart + (Z.of_nat K + 1) * CHUNKSIZE -> m a = b) ->
  (j <= K)%nat ->
  chunk_fp splitStrat m (blockStart + Z.of_nat j * CHUNKSIZE)
  = chunk_fp splitStrat m (blockStart + Z.of_nat O * CHUNKSIZE).
Proof.
  intros Hb Hj. unfold chunk_fp. apply recorded_ext.
  rewrite CHUNKSIZE_eq in *. intros n Hn _.
  unfold hash2, MEM_read16, load8.
  rewrite !Hb by lia. reflexivity.
Qed.

(** C5: on a 128 KiB block filled with a single byte value every strategy
    returns [blockSize]. *)
Theorem C5_uniform_block_no_split m blockStart (b : Byte.byte) splitStrat
    workspace wkspSize :
  (forall a, blockStart <= a < blockStart + BLOCKSIZE -> m a = b) ->
  ZSTD_splitBlock m blockStart BLOCKSIZE splitStrat workspace wkspSize = Some BLOCKSIZE.
Proof.
  intros Hb.
  apply (equal_chunks_no_split m blockStart splitStrat
           (chunk_fp splitStrat m (blockStart + Z.of_nat O * CHUNKSIZE))).
  intros j Hj. apply (uniform_chunk_fp m blockStart b splitStrat 15); [|assumption].
  intros a Ha. apply Hb. rewrite BLOCKSIZE_eq, CHUNKSIZE_eq in *. lia.
Qed.

Lemma C5_uniform_block_no_split_witness :
  ZSTD_splitBlock (fun _ => x2a) 4096 BLOCKSIZE split_lvl2 workspace0 8208
  = Some BLOCKSIZE.
Proof.
  apply (C5_uniform_block_no_split (fun _ => x2a) 4096 x2a).
  intros a _. reflexivity.
Defined.

(** *** The sample blocks *)

Lemma shifted_block_lvl1 workspace wkspSize :
  ZSTD_splitBlock shifted_block 0 BLOCKSIZE split_lvl1 workspace wkspSize
  = Some CHUNKSIZE.
Proof.
  unfold ZSTD_splitBlock, ZSTD_splitBlock_byChunks. rewrite scan_init_eq.
  vm_compute. reflexivity.
Qed.

Lemma shifted_block_chunks_lvl3 :
  chunk_fp split_lvl3 shifted_block 8192 = chunk_fp split_lvl3 shifted_block 0.
Proof. vm_compute. reflexivity. Qed.

Lemma shifted_block_periodic (j : nat) n :
  (1 <= j)%nat -> 0 <= n < 8192 ->
  shifted_block (0 + Z.of_nat j * 8192 + n) = shifted_block (8192 + n).
Proof.
  intros Hj Hn. unfold shifted_block.
  replace ((0 + Z.of_nat j * 8192 + n) mod 8192) with n by lia_mod.
  replace ((8192 + n) mod 8192) with n by lia_mod.
  destruct (Z.ltb_spec (0 + Z.of_nat j * 8192 + n) 8192); [lia|].
  destruct (Z.ltb_spec (8192 + n) 8192); [lia|]. reflexivity.
Qed.

Lemma shifted_block_lvl3 workspace wkspSize :
  ZSTD_splitBlock shifted_block 0 BLOCKSIZE split_lvl3 workspace wkspSize
  = Some BLOCKSIZE.
Proof.
  apply (equal_chunks_no_split _ _ _ (chunk_fp split_lvl3 shifted_block 0)).
  intros [|j] _; [reflexivity|].
  rewrite <- shifted_block_chunks_lvl3.
  unfold chunk_fp. apply recorded_ext. rewrite CHUNKSIZE_eq. intros n Hn _.
  unfold hash2, MEM_read16, load8.
  rewrite <- !Z.add_assoc.
  rewrite !(Z.add_assoc 0), !(shifted_block_periodic (S j)) by lia.
  reflexivity.
Qed.

Lemma dense_block_lvl3 workspace wkspSize :
  ZSTD_splitBlock dense_block 0 BLOCKSIZE split_lvl3 workspace wkspSize
  = Some CHUNKSIZE.
Proof.
  unfold ZSTD_splitBlock, ZSTD_splitBlock_byChunks. rewrite scan_init_eq.
  vm_compute. reflexivity.
Qed.

Lemma dense_block_sampled (j : nat) n :
  0 <= n < 8191 -> n mod 11 = 0 ->
  dense_block (0 + Z.of_nat j * 8192 + n) = x00
  /\ dense_block (0 + Z.of_nat j * 8192 + n + 1) = x00.
Proof.
  intros Hn Hmod. unfold dense_block.
  replace ((0 + Z.of_nat j * 8192 + n) mod 8192) with n by lia_mod.
  replace ((0 + Z.of_nat j * 8192 + n + 1) mod 8192) with (n + 1) by lia_mod.
  replace ((n + 1) mod 11) with 1 by lia_mod.
  rewrite Hmod. simpl (0 <? 2). simpl (1 <? 2).
  split; destruct (_ <? 8192); reflexivity.
Qed.

Lemma dense_block_lvl1 workspace wkspSize :
  ZSTD_splitBlock dense_block 0 BLOCKSIZE split_lvl1 workspace wkspSize
  = Some BLOCKSIZE.
Proof.
  apply (equal_chunks_no_split _ _ _ (chunk_fp split_lvl1 dense_block 0)).
  intros j _.
  unfold chunk_fp. apply recorded_ext. rewrite CHUNKSIZE_eq.
  cbn [samplingRate_of hashParams]. intros n Hn Hmod.
  unfold hash2, MEM_read16, load8.
  destruct (dense_block_sampled j n Hn Hmod) as [-> ->].
  destruct (dense_block_sampled O n Hn Hmod) as [H0 H1].
  simpl (Z.of_nat 0 * 8192) in *. rewrite Z.add_0_r in *.
  rewrite H0, H1. reflexivity.
Qed.

Lemma tail_block_lvl1 workspace wkspSize :
  ZSTD_splitBlock tail_block 0 BLOCKSIZE split_lvl1 workspace wkspSize
  = Some (BLOCKSIZE - CHUNKSIZE).
Proof.
  set (F := chunk_fp split_lvl1 tail_block (0 + Z.of_nat O * CHUNKSIZE)).
  assert (Hchunks : forall j : nat, (j <= 14)%nat ->
            chunk_fp split_lvl1 tail_block (0 + Z.of_nat j * CHUNKSIZE) = F).
  { intros j Hj. apply (uniform_chunk_fp tail_block 0 x00 split_lvl1 14); [|assumption].
    intros a Ha. unfold tail_block. rewrite CHUNKSIZE_eq in Ha.
    destruct (Z.ltb_spec a (15 * 8192)); [reflexivity|lia]. }
  unfold ZSTD_splitBlock, ZSTD_splitBlock_byChunks.
  destruct (scan_inv_init tail_block 0 split_lvl1 F 14 ltac:(lia) Hchunks workspace)
    as (st0 & -> & Hinv0).
  destruct (scan_loop_equal_chunks tail_block 0 split_lvl1 F 14 ltac:(lia) Hchunks
              BLOCKSIZE 14 O st0 3 Hinv0 ltac:(lia) eq_refl)
    as (st' & (Hpos & Hpen & Hpast & Hnew) & _ & Hloop).
  change (0 + 14)%nat with 14%nat in *.
  change (S (Z.to_nat (BLOCKSIZE / CHUNKSIZE))) with (14 + 3)%nat.
  rewrite Hloop.
  change (scan_loop 3 tail_block 0 BLOCKSIZE split_lvl1 st')
    with (if pos st' <=? u64 (BLOCKSIZE - CHUNKSIZE)
          then match scan_body tail_block 0 split_lvl1 st' with
               | None => None
               | Some (Return offset) => Some offset
               | Some (Next st1) => scan_loop 2 tail_block 0 BLOCKSIZE split_lvl1 st1
               end
          else Some BLOCKSIZE).
  rewrite scan_body_eq. cbv zeta.
  rewrite (recorded_drop _ _ zeroFingerprint _ _ Hnew), Hpast, Hpen, Hpos.
  assert (Hcmp : compareFingerprints (scale (Z.of_nat 14 + 1) F)
                   (recorded split_lvl1 zeroFingerprint tail_block
                      (0 + (Z.of_nat 14 + 1) * CHUNKSIZE))
                   (Z.max 0 (THRESHOLD_PENALTY - Z.of_nat 14))
                   (hashParams split_lvl1) = true)
    by (vm_compute; reflexivity).
  rewrite Hcmp. reflexivity.
Qed.

(** C6 as stated fails at both ends: [shifted_block] is split at exactly
    [CHUNKSIZE] by level 1, and [tail_block] at exactly
    [blockSize - CHUNKSIZE]. *)
Lemma C6_counterexample :
  (exists r, ZSTD_splitBlock shifted_block 0 BLOCKSIZE split_lvl1 workspace0 0 = Some r
             /\ r <> BLOCKSIZE /\ ~ (CHUNKSIZE < r))
  /\ (exists r, ZSTD_splitBlock tail_block 0 BLOCKSIZE split_lvl1 workspace0 0 = Some r
                /\ r <> BLOCKSIZE /\ ~ (r < BLOCKSIZE - CHUNKSIZE)).
Proof.
  split.
  - exists CHUNKSIZE. split; [apply shifted_block_lvl1|].
    rewrite BLOCKSIZE_eq, CHUNKSIZE_eq. lia.
  - exists (BLOCKSIZE - CHUNKSIZE). split; [apply tail_block_lvl1|].
    rewrite BLOCKSIZE_eq, CHUNKSIZE_eq. lia.
Qed.

Lemma C6_split_found_range_witness :
  8192 mod CHUNKSIZE = 0 /\ CHUNKSIZE <= 8192 <= BLOCKSIZE - CHUNKSIZE.
Proof.
  apply (C6_split_found_range shifted_block 0 split_lvl1 workspace0 0 8192).
  - vm_compute. reflexivity.
  - vm_compute. discriminate.
Defined.

Lemma C7_penalty_floor_witness :
  exists st,
    scan_reach (fun _ => x00) 0 BLOCKSIZE split_lvl1 workspace0 5 st
    /\ penalty st = 0.
Proof.
  set (m := fun _ : Z => x00).
  set (F := chunk_fp split_lvl1 m (0 + Z.of_nat O * CHUNKSIZE)).
  assert (Hchunks : forall j : nat, (j <= 15)%nat ->
            chunk_fp split_lvl1 m (0 + Z.of_nat j * CHUNKSIZE) = F).
  { intros j Hj. apply (uniform_chunk_fp m 0 x00 split_lvl1 15); [|assumption].
    intros a _. reflexivity. }
  destruct (scan_inv_init m 0 split_lvl1 F 15 ltac:(lia) Hchunks workspace0)
    as (st0 & Hinit & Hinv0).
  destruct (scan_loop_equal_chunks m 0 split_lvl1 F 15 ltac:(lia) Hchunks
              BLOCKSIZE 5 O st0 O Hinv0 ltac:(lia) eq_refl)
    as (st' & _ & Hsteps & _).
  exists st'.
  assert (Hreach : scan_reach m 0 BLOCKSIZE split_lvl1 workspace0 5 st')
    by (exists st0; split; assumption).
  split; [exact Hreach|].
  apply (C7_penalty_floor m 0 BLOCKSIZE split_lvl1 workspace0 5 st' Hreach).
Defined.

(** *** Sensitivity of the strategies *)

(** C10 as stated fails on [shifted_block]: level 1 detects a shift, at
    [CHUNKSIZE], and level 3 returns [blockSize]. *)
Lemma C10_counterexample :
  exists r1 r3,
    ZSTD_splitBlock shifted_block 0 BLOCKSIZE split_lvl1 workspace0 0 = Some r1
    /\ ZSTD_splitBlock shifted_block 0 BLOCKSIZE split_lvl3 workspace0 0 = Some r3
    /\ r1 < BLOCKSIZE /\ ~ (r3 < BLOCKSIZE).
Proof.
  exists CHUNKSIZE, BLOCKSIZE.
  split; [apply shifted_block_lvl1|]. split; [apply shifted_block_lvl3|].
  rewrite BLOCKSIZE_eq, CHUNKSIZE_eq. lia.
Qed.

(** C10, as amended: detection by one of level 1 and level 3 does not imply
    detection by the other.  There is a 128 KiB block on which level 1
    returns an offset below [blockSize] and level 3 returns [blockSize], and
    one on which level 3 returns an offset below [blockSize] and level 1
    returns [blockSize]. *)
Theorem C10_no_sensitivity_order :
  (exists m r1,
     ZSTD_splitBlock m 0 BLOCKSIZE split_lvl1 workspace0 0 = Some r1
     /\ r1 < BLOCKSIZE
     /\ ZSTD_splitBlock m 0 BLOCKSIZE split_lvl3 workspace0 0 = Some BLOCKSIZE)
  /\ (exists m r3,
        ZSTD_splitBlock m 0 BLOCKSIZE split_lvl3 workspace0 0 = Some r3
        /\ r3 < BLOCKSIZE
        /\ ZSTD_splitBlock m 0 BLOCKSIZE split_lvl1 workspace0 0 = Some BLOCKSIZE).
Proof.
  split.
  - exists shifted_block, CHUNKSIZE.
    split; [apply shifted_block_lvl1|]. split; [|apply shifted_block_lvl3].
    rewrite BLOCKSIZE_eq, CHUNKSIZE_eq. lia.
  - exists dense_block, CHUNKSIZE.
    split; [apply dense_block_lvl3|]. split; [|apply dense_block_lvl1].
    rewrite BLOCKSIZE_eq, CHUNKSIZE_eq. lia.
Qed.

(** *** The comparisons of the driver are exact *)

Lemma Zsum_upto_le count f B :
  (forall n, (n < count)%nat -> f n <= B) -> Zsum_upto count f <= Z.of_nat count * B.
Proof.
  induction count as [|c IH]; intros Hf; [change (Zsum_upto 0 f) with 0; lia|].
  rewrite Zsum_upto_S. specialize (Hf c ltac:(lia)) as Hc.
  assert (Zsum_upto c f <= Z.of_nat c * B) by (apply IH; intros; apply Hf; lia).
  lia.
Qed.

Lemma ev_Forall (P : Z -> Prop) (a : list Z) (i : nat) :
  Forall P a -> P 0 -> P (ev a i).
Proof.
  intros Ha H0. unfold ev. destruct (a !! i) as [x|] eqn:Hx; [|exact H0].
  rewrite Forall_lookup in Ha. exact (Ha i x Hx).
Qed.

(** Counts and totals up to [2 ^ 17], as the driver has them, keep a
    comparison within the C types. *)
Lemma comparison_exact_bounded ref cand penalty hashLog :
  0 <= hashLog <= 10 ->
  Forall (fun x => 0 <= x <= 2 ^ 17) (events ref) ->
  Forall (fun x => 0 <= x <= 2 ^ 17) (events cand) ->
  0 < nbEvents ref <= 2 ^ 17 -> 0 < nbEvents cand <= 2 ^ 17 ->
  0 <= penalty <= 3 ->
  comparison_exact ref cand penalty hashLog = true.
Proof.
  intros Hlog Href Hcand Hnr Hnc Hpen.
  assert (Hr : forall b, 0 <= ev (events ref) b <= 2 ^ 17)
    by (intros b; apply (ev_Forall _ _ b Href); lia).
  assert (Hc : forall b, 0 <= ev (events cand) b <= 2 ^ 17)
    by (intros b; apply (ev_Forall _ _ b Hcand); lia).
  assert (Hpow : 0 < 2 ^ hashLog <= 2 ^ 10).
  { split; [apply Z.pow_pos_nonneg; lia|apply Z.pow_le_mono_r; lia]. }
  unfold comparison_exact, HASHLOG_MAX, INT_MAX.
  repeat (apply andb_true_intro; split); try (apply Z.leb_le; lia).
  - apply forallb_forall. intros b _. unfold bucket_exact.
    specialize (Hr b). specialize (Hc b).
    repeat (apply andb_true_intro; split);
      try (apply Z.leb_le; lia); apply Z.ltb_lt; nia.
  - apply Z.ltb_lt. unfold spec_distance.
    eapply Z.le_lt_trans.
    + apply (Zsum_upto_le _ _ (2 ^ 34)). intros b _.
      specialize (Hr b). specialize (Hc b). nia.
    + rewrite Z2Nat.id by lia. nia.
  - apply Z.ltb_lt. nia.
Qed.

Lemma scan_bounded_init m blockStart splitStrat workspace st :
  scan_init m blockStart splitStrat workspace = Some st ->
  scan_bounded splitStrat O st.
Proof.
  rewrite scan_init_eq. intros [= <-].
  unfold scan_bounded, THRESHOLD_PENALTY.
  cbn [pos penalty fpstats pastEvents newEvents].
  pose proof (nbEvents_recorded_range splitStrat zeroFingerprint m blockStart).
  repeat split; try lia; try apply length_chunk_fp.
  - eapply Forall_impl; [apply chunk_fp_bound|]. cbv beta. intros x Hx. lia.
  - unfold chunk_fp. lia.
  - unfold chunk_fp. lia.
Qed.

Lemma scan_bounded_candidate m p splitStrat j st :
  scan_bounded splitStrat j st ->
  recorded splitStrat (newEvents (fpstats st)) m (p + pos st)
  = chunk_fp splitStrat m (p + pos st).
Proof. intros (_ & _ & _ & _ & _ & Hnew). apply recorded_drop. exact Hnew. Qed.

Lemma scan_bounded_step m p splitStrat j st st' :
  scan_bounded splitStrat j st ->
  (pos st <=? u64 (BLOCKSIZE - CHUNKSIZE)) = true ->
  scan_body m p splitStrat st = Some (Next st') ->
  scan_bounded splitStrat (S j) st'.
Proof.
  intros Hb Hguard Hbody.
  pose proof (scan_bounded_candidate m p splitStrat j st Hb) as Hcand.
  destruct Hb as (Hpos & Hpen & Hlen & Hall & Hnb & Hnew).
  rewrite scan_body_eq in Hbody. cbv zeta in Hbody. rewrite Hcand in Hbody.
  set (cand := chunk_fp splitStrat m (p + pos st)) in *.
  destruct (compareFingerprints _ _ _ _); [discriminate|].
  injection Hbody as <-.
  rewrite Hpos, BLOCKSIZE_eq, CHUNKSIZE_eq, u64_small in Hguard by lia.
  apply Z.leb_le in Hguard.
  pose proof (nbEvents_recorded_range splitStrat zeroFingerprint m (p + pos st)) as Hnc.
  fold (chunk_fp splitStrat m (p + pos st)) in Hnc. fold cand in Hnc.
  unfold scan_bounded, THRESHOLD_PENALTY in *.
  cbn [pos penalty fpstats pastEvents newEvents].
  rewrite Hpos, CHUNKSIZE_eq. repeat split.
  - rewrite u64_small; lia.
  - destruct (Z.gtb_spec (penalty st) 0); [rewrite s32_small|]; lia.
  - destruct (Z.gtb_spec (penalty st) 0); [rewrite s32_small|]; lia.
  - rewrite length_mergeEvents. exact Hlen.
  - apply Forall_lookup. intros i y Hy.
    rewrite events_mergeEvents in Hy by lia.
    destruct (events (pastEvents (fpstats st)) !! i) as [x|] eqn:Hx.
    + rewrite Forall_lookup in Hall. specialize (Hall i x Hx).
      pose proof (ev_Forall (fun x => 0 <= x <= 8191) (events cand) i
                    (chunk_fp_bound splitStrat m (p + pos st)) ltac:(cbv beta; lia)) as Hc.
      cbv beta in Hc.
      pose proof (u32_range (x + ev (events cand) i)).
      pose proof (u32_le (x + ev (events cand) i) ltac:(lia)).
      case_decide.
      * change (Some (u32 (x + ev (events cand) i)) = Some y) in Hy.
        apply (inj Some) in Hy. subst y. lia.
      * apply (inj Some) in Hy. subst y. lia.
    + case_decide; discriminate.
  - rewrite nbEvents_mergeEvents, u64_small; lia.
  - rewrite nbEvents_mergeEvents, u64_small; lia.
  - subst cand. apply drop_recorded.
Qed.

(** In every state a scan of a 128 KiB block reaches, the comparison the loop
    body makes stays within the C types, so the amended C2 applies to it. *)
Lemma scan_comparison_exact m blockStart splitStrat workspace n st :
  scan_reach m blockStart BLOCKSIZE splitStrat workspace n st ->
  (pos st <=? u64 (BLOCKSIZE - CHUNKSIZE)) = true ->
  comparison_exact (pastEvents (fpstats st))
    (recorded splitStrat (newEvents (fpstats st)) m (blockStart + pos st))
    (penalty st) (hashParams splitStrat) = true.
Proof.
  intros (st0 & Hinit & Hsteps) Hguard.
  apply scan_bounded_init in Hinit.
  assert (Hb : scan_bounded splitStrat (O + n) st).
  { revert Hinit. generalize O as j.
    induction Hsteps as [st | st st1 st' d Hg Hbody Hsteps IH]; intros j Hj.
    - rewrite Nat.add_0_r. exact Hj.
    - replace (j + S d)%nat with (S j + d)%nat by lia.
      apply IH; [assumption|]. eapply scan_bounded_step; eassumption. }
  rewrite (scan_bounded_candidate m blockStart splitStrat _ st Hb).
  destruct Hb as (Hpos & Hpen & Hlen & Hall & Hnb & Hnew).
  rewrite Hpos, BLOCKSIZE_eq, CHUNKSIZE_eq, u64_small in Hguard by lia.
  apply Z.leb_le in Hguard. unfold THRESHOLD_PENALTY in Hpen.
  pose proof (nbEvents_recorded_range splitStrat zeroFingerprint m (blockStart + pos st)).
  pose proof (hashParams_range splitStrat).
  apply comparison_exact_bounded; try lia.
  - eapply Forall_impl; [exact Hall|]. cbv beta. intros x Hx. lia.
  - eapply Forall_impl; [apply chunk_fp_bound|]. cbv beta. intros x Hx. lia.
  - unfold chunk_fp. lia.
Qed.

(** ** Further properties of the code *)

(** *** Hasher *)





(** *** Recorder *)

Lemma for_stride_zero_step {St : Type} (body : Z -> St -> St) limit :
  0 < limit ->
  forall (fuel : nat) (s : St), for_stride fuel 0 limit 0 body s = None.
Proof.
  intros Hlimit. induction fuel as [|fuel IH]; intros s; [reflexivity|].
  simpl. destruct (Z.ltb_spec 0 limit); [|lia].
  change (u64 (0 + 0)) with 0. apply IH.
Qed.

(** X3: with a sampling stride of 0 the loop of the recorder never leaves
    offset 0: whatever fuel it is given it does not finish, and neither
    [addEvents_generic] nor [recordFingerprint_generic] returns. *)
Theorem X3_zero_stride_never_returns fp m src srcSize hashLog :
  2 <= srcSize < 2 ^ 64 ->
  (forall (fuel : nat) (a : list Z),
     for_stride fuel 0 (u64 (srcSize - HASHLENGTH + 1)) 0
       (fun n a => incr (hash2 m (src + n) hashLog) a) a = None)
  /\ addEvents_generic fp m src srcSize 0 hashLog = None
  /\ recordFingerprint_generic fp m src srcSize 0 hashLog = None.
Proof.
  intros Hsz.
  assert (Hlimit : 0 < u64 (srcSize - HASHLENGTH + 1))
    by (unfold HASHLENGTH; rewrite u64_small; lia).
  split; [intros fuel a; apply for_stride_zero_step; exact Hlimit|].
  split.
  - unfold addEvents_generic. cbv zeta. rewrite for_stride_zero_step by exact Hlimit.
    reflexivity.
  - unfold recordFingerprint_generic, addEvents_generic. cbv zeta.
    rewrite for_stride_zero_step by exact Hlimit. reflexivity.
Qed.

Lemma X3_zero_stride_never_returns_witness :
  recordFingerprint_generic zeroFingerprint tail_block 0 CHUNKSIZE 0 10 = None.
Proof.
  apply (X3_zero_stride_never_returns zeroFingerprint tail_block 0 CHUNKSIZE 10).
  rewrite CHUNKSIZE_eq. lia.
Defined.






(** *** Accumulator *)

Lemma events_removeEvents acc slice (i : nat) :
  (Z.to_nat HASHTABLESIZE <= length (events acc))%nat ->
  events (removeEvents acc slice) !! i
  = if decide (i < Z.to_nat HASHTABLESIZE)%nat
    then (fun x => u32 (x - ev (events slice) i)) <$> events acc !! i
    else events acc !! i.
Proof.
  intros Hlen. unfold removeEvents. cbn [events].
  apply (lookup_for_upto_insert (fun n x => u32 (x - ev (events slice) n))).
  assumption.
Qed.

Lemma nbEvents_removeEvents acc slice :
  nbEvents (removeEvents acc slice) = u64 (nbEvents acc - nbEvents slice).
Proof. reflexivity. Qed.

Lemma length_removeEvents acc slice :
  length (events (removeEvents acc slice)) = length (events acc).
Proof.
  unfold removeEvents. cbn [events].
  apply (length_for_upto_insert (fun n x => u32 (x - ev (events slice) n))).
Qed.

Lemma ev_mergeEvents acc newfp (i : nat) :
  (Z.to_nat HASHTABLESIZE <= length (events acc))%nat ->
  (i < Z.to_nat HASHTABLESIZE)%nat ->
  ev (events (mergeEvents acc newfp)) i = u32 (ev (events acc) i + ev (events newfp) i).
Proof.
  intros Hlen Hi. unfold ev at 1. rewrite events_mergeEvents, decide_True by assumption.
  destruct (events acc !! i) as [x|] eqn:Hx.
  - rewrite (ev_lookup _ _ _ Hx). reflexivity.
  - apply lookup_ge_None in Hx. lia.
Qed.

Lemma remove_merge acc newfp :
  (Z.to_nat HASHTABLESIZE <= length (events acc))%nat ->
  Forall (fun x => 0 <= x < 2 ^ 32) (events acc) ->
  0 <= nbEvents acc < 2 ^ 64 ->
  removeEvents (mergeEvents acc newfp) newfp = acc.
Proof.
  intros Hlen Hall Hnb. apply Fingerprint_eq.
  - apply list_eq. intros i.
    rewrite events_removeEvents by (rewrite length_mergeEvents; exact Hlen).
    rewrite events_mergeEvents by exact Hlen.
    case_decide; [|reflexivity].
    destruct (events acc !! i) as [x|] eqn:Hx; [|reflexivity].
    rewrite Forall_lookup in Hall. specialize (Hall i x Hx).
    simpl. f_equal. unfold u32. lia_mod.
  - rewrite nbEvents_removeEvents, nbEvents_mergeEvents. unfold u64. lia_mod.
Qed.

Lemma merge_remove acc slice :
  (Z.to_nat HASHTABLESIZE <= length (events acc))%nat ->
  Forall (fun x => 0 <= x < 2 ^ 32) (events acc) ->
  0 <= nbEvents acc < 2 ^ 64 ->
  mergeEvents (removeEvents acc slice) slice = acc.
Proof.
  intros Hlen Hall Hnb. apply Fingerprint_eq.
  - apply list_eq. intros i.
    rewrite events_mergeEvents by (rewrite length_removeEvents; exact Hlen).
    rewrite events_removeEvents by exact Hlen.
    case_decide; [|reflexivity].
    destruct (events acc !! i) as [x|] eqn:Hx; [|reflexivity].
    rewrite Forall_lookup in Hall. specialize (Hall i x Hx).
    simpl. f_equal. unfold u32. lia_mod.
  - rewrite nbEvents_mergeEvents, nbEvents_removeEvents. unfold u64. lia_mod.
Qed.

(** X6: [removeEvents] undoes [mergeEvents] and [mergeEvents] undoes
    [removeEvents], counter by counter and on the total, for every
    accumulator whose 1024 counters are 32-bit values and whose total is a
    64-bit value: also when the additions or subtractions wrap on the way,
    and whatever the slice holds. *)
Theorem X6_merge_remove_round_trip acc slice :
  (Z.to_nat HASHTABLESIZE <= length (events acc))%nat ->
  Forall (fun x => 0 <= x < 2 ^ 32) (events acc) ->
  0 <= nbEvents acc < 2 ^ 64 ->
  removeEvents (mergeEvents acc slice) slice = acc
  /\ mergeEvents (removeEvents acc slice) slice = acc.
Proof.
  intros Hlen Hall Hnb. split; [apply remove_merge|apply merge_remove]; assumption.
Qed.

Lemma Forall_replicate_insert (P : Z -> Prop) (n i : nat) (x y : Z) :
  P x -> P y -> Forall P (<[i := y]> (replicate n x)).
Proof.
  intros Hx Hy. apply Forall_insert; [|exact Hy].
  apply Forall_replicate. exact Hx.
Qed.

Lemma X6_merge_remove_round_trip_witness :
  removeEvents (mergeEvents fp_three fp_wide) fp_wide = fp_three
  /\ mergeEvents (removeEvents fp_three fp_wide) fp_wide = fp_three.
Proof.
  apply (X6_merge_remove_round_trip fp_three fp_wide).
  - unfold fp_three. cbn [events]. rewrite length_insert, length_replicate. lia.
  - apply Forall_replicate_insert; lia.
  - simpl. lia.
Defined.

Lemma events_flushEvents fps (i : nat) :
  (Z.to_nat HASHTABLESIZE <= length (events (pastEvents fps)))%nat ->
  events (pastEvents (flushEvents fps)) !! i
  = if decide (i < Z.to_nat HASHTABLESIZE)%nat
    then (fun _ => ev (events (newEvents fps)) i) <$> events (pastEvents fps) !! i
    else events (pastEvents fps) !! i.
Proof.
  intros Hlen. unfold flushEvents. cbn [pastEvents events].
  apply (lookup_for_upto_insert (fun n _ => ev (events (newEvents fps)) n)).
  assumption.
Qed.

(** X7: on a workspace whose two fingerprints have the 1024 counters of the
    C arrays, [flushEvents] makes the reference an exact copy of the
    candidate, counters and total, and leaves a candidate that is all zero;
    nothing of the old reference survives. *)
Theorem X7_flushEvents_replaces_reference fps :
  length (events (pastEvents fps)) = Z.to_nat HASHTABLESIZE ->
  length (events (newEvents fps)) = Z.to_nat HASHTABLESIZE ->
  flushEvents fps = mkFPStats (newEvents fps) zeroFingerprint.
Proof.
  intros Hpast Hnew.
  assert (Hp : pastEvents (flushEvents fps) = newEvents fps).
  { apply Fingerprint_eq; [|reflexivity].
    apply list_eq. intros i. rewrite events_flushEvents by lia.
    destruct (events (newEvents fps) !! i) as [y|] eqn:Hy.
    - apply lookup_lt_Some in Hy as Hi. rewrite decide_True by lia.
      destruct (events (pastEvents fps) !! i) as [x|] eqn:Hx.
      + simpl. f_equal. apply ev_lookup. exact Hy.
      + apply lookup_ge_None in Hx. lia.
    - apply lookup_ge_None in Hy as Hi. rewrite decide_False by lia.
      apply lookup_ge_None. lia. }
  unfold flushEvents in *. cbn [pastEvents] in Hp. rewrite Hp. reflexivity.
Qed.

Lemma X7_flushEvents_replaces_reference_witness :
  flushEvents (mkFPStats fp_three fp_two) = mkFPStats fp_two zeroFingerprint.
Proof.
  apply (X7_flushEvents_replaces_reference (mkFPStats fp_three fp_two)).
  - cbn [pastEvents fp_three events]. rewrite length_insert. apply length_replicate.
  - cbn [newEvents fp_two events]. rewrite length_insert. apply length_replicate.
Defined.

(** X8: merging is commutative and associative on fingerprints that have the
    1024 counters of the C array, wrap-around included: the order in which
    chunks are merged into a reference does not matter. *)
Theorem X8_mergeEvents_commutative_associative a b c :
  length (events a) = Z.to_nat HASHTABLESIZE ->
  length (events b) = Z.to_nat HASHTABLESIZE ->
  mergeEvents a b = mergeEvents b a
  /\ mergeEvents (mergeEvents a b) c = mergeEvents a (mergeEvents b c).
Proof.
  intros Ha Hb. split.
  - apply Fingerprint_eq.
    + apply list_eq. intros i. rewrite !events_mergeEvents by lia.
      case_decide as Hi.
      * destruct (events a !! i) as [x|] eqn:Hx; [|apply lookup_ge_None in Hx; lia].
        destruct (events b !! i) as [y|] eqn:Hy; [|apply lookup_ge_None in Hy; lia].
        rewrite (ev_lookup _ _ _ Hx), (ev_lookup _ _ _ Hy). simpl.
        f_equal. f_equal. lia.
      * rewrite (proj2 (lookup_ge_None (events a) i)) by lia.
        rewrite (proj2 (lookup_ge_None (events b) i)) by lia. reflexivity.
    + rewrite !nbEvents_mergeEvents. f_equal. lia.
  - apply Fingerprint_eq.
    + apply list_eq. intros i.
      rewrite (events_mergeEvents (mergeEvents a b)) by (rewrite length_mergeEvents; lia).
      rewrite !events_mergeEvents by lia.
      case_decide as Hi; [|reflexivity].
      rewrite (ev_mergeEvents b c i) by lia.
      destruct (events a !! i) as [x|] eqn:Hx; [|reflexivity].
      simpl. f_equal. unfold u32. lia_mod.
    + rewrite !nbEvents_mergeEvents. unfold u64. lia_mod.
Qed.

Lemma X8_mergeEvents_commutative_associative_witness :
  mergeEvents fp_three fp_two = mergeEvents fp_two fp_three
  /\ mergeEvents (mergeEvents fp_three fp_two) fp_wide
     = mergeEvents fp_three (mergeEvents fp_two fp_wide).
Proof.
  apply (X8_mergeEvents_commutative_associative fp_three fp_two fp_wide).
  - unfold fp_three. cbn [events]. rewrite length_insert. apply length_replicate.
  - unfold fp_two. cbn [events]. rewrite length_insert. apply length_replicate.
Defined.

Lemma Zsum_upto_add count f g :
  Zsum_upto count (fun n => f n + g n) = Zsum_upto count f + Zsum_upto count g.
Proof.
  induction count as [|c IH]; [reflexivity|].
  rewrite !Zsum_upto_S, IH. lia.
Qed.

Lemma Zsum_upto_scale count f k :
  Zsum_upto count (fun n => k * f n) = k * Zsum_upto count f.
Proof.
  induction count as [|c IH]; [change (0 = k * 0); lia|].
  rewrite !Zsum_upto_S, IH. lia.
Qed.

(** X9: when no counter wraps, merging adds up the sums of the bucket counts
    and the totals; so a reference merged from fingerprints whose total is
    the sum of their counts has that property too, and a shortfall of the
    parts adds up in the merge. *)
Theorem X9_mergeEvents_adds_sums acc newfp hashLog :
  0 <= hashLog <= HASHLOG_MAX ->
  (Z.to_nat HASHTABLESIZE <= length (events acc))%nat ->
  (forall i, (i < Z.to_nat (2 ^ hashLog))%nat ->
     0 <= ev (events acc) i /\ 0 <= ev (events newfp) i) ->
  sum_counts acc hashLog + sum_counts newfp hashLog < 2 ^ 32 ->
  0 <= nbEvents acc -> 0 <= nbEvents newfp -> nbEvents acc + nbEvents newfp < 2 ^ 64 ->
  sum_counts (mergeEvents acc newfp) hashLog
  = sum_counts acc hashLog + sum_counts newfp hashLog
  /\ nbEvents (mergeEvents acc newfp) = nbEvents acc + nbEvents newfp.
Proof.
  unfold HASHLOG_MAX. intros Hlog Hlen Hpos Hsum Hna Hnn Hnb.
  assert (Hpow : 0 < 2 ^ hashLog <= 2 ^ 10).
  { split; [apply Z.pow_pos_nonneg; lia|apply Z.pow_le_mono_r; lia]. }
  assert (HN : (Z.to_nat (2 ^ hashLog) <= Z.to_nat HASHTABLESIZE)%nat)
    by (rewrite HASHTABLESIZE_eq; lia).
  split; [|rewrite nbEvents_mergeEvents; apply u64_small; lia].
  unfold sum_counts in *.
  set (N := Z.to_nat (2 ^ hashLog)) in *.
  rewrite <- Zsum_upto_add. apply Zsum_upto_ext. intros i Hi.
  rewrite ev_mergeEvents by lia. apply u32_small.
  pose proof (Zsum_upto_term N (ev (events acc)) i
                ltac:(intros; apply Hpos; assumption) Hi).
  pose proof (Zsum_upto_term N (ev (events newfp)) i
                ltac:(intros; apply Hpos; assumption) Hi).
  pose proof (Zsum_upto_nonneg N (ev (events acc))
                ltac:(intros; apply Hpos; assumption)).
  pose proof (Zsum_upto_nonneg N (ev (events newfp))
                ltac:(intros; apply Hpos; assumption)).
  destruct (Hpos i Hi). lia.
Qed.

Lemma ev_small_fingerprints (i : nat) :
  0 <= ev (events fp_three) i /\ 0 <= ev (events fp_two) i.
Proof.
  split.
  - apply (ev_Forall (fun x => 0 <= x)); [|lia].
    apply Forall_replicate_insert; lia.
  - apply (ev_Forall (fun x => 0 <= x)); [|lia].
    apply Forall_replicate_insert; lia.
Qed.

Lemma X9_mergeEvents_adds_sums_witness :
  sum_counts (mergeEvents fp_three fp_two) 10
  = sum_counts fp_three 10 + sum_counts fp_two 10
  /\ nbEvents (mergeEvents fp_three fp_two) = nbEvents fp_three + nbEvents fp_two.
Proof.
  apply (X9_mergeEvents_adds_sums fp_three fp_two 10).
  - unfold HASHLOG_MAX. lia.
  - unfold fp_three. cbn [events]. rewrite length_insert, length_replicate. lia.
  - intros i _. apply ev_small_fingerprints.
  - vm_compute. reflexivity.
  - simpl. lia.
  - simpl. lia.
  - simpl. lia.
Defined.

(** *** Comparator *)

Lemma fpDistance_nonneg fp1 fp2 hashLog : 0 <= fpDistance fp1 fp2 hashLog.
Proof.
  unfold fpDistance. destruct (Z.to_nat (u64 (Z.shiftl 1 hashLog))) as [|c].
  - reflexivity.
  - rewrite for_upto_S. apply u64_range.
Qed.

Lemma fpDistance_self fp hashLog : fpDistance fp fp hashLog = 0.
Proof.
  unfold fpDistance. apply for_upto_fixed. intros n _.
  rewrite Z.sub_diag. reflexivity.
Qed.

(** X10: the distance compares distributions, not sizes.  A fingerprint is
    at distance 0 from itself, whatever it holds, and [k] merged copies of a
    fingerprint are at distance 0 from one copy as long as the totals fit in
    [S64]. *)
Theorem X10_fpDistance_zero_on_proportional fp k hashLog :
  0 <= nbEvents fp < 2 ^ 63 -> 0 <= k * nbEvents fp < 2 ^ 63 ->
  fpDistance fp fp hashLog = 0
  /\ fpDistance (scale k fp) fp hashLog = 0
  /\ fpDistance fp (scale k fp) hashLog = 0.
Proof.
  intros Hnb Hk. split; [apply fpDistance_self|].
  assert (Hs : fpDistance (scale k fp) fp hashLog = 0)
    by (apply fpDistance_scale; assumption).
  split; [exact Hs|].
  rewrite <- Hs. unfold fpDistance. apply for_upto_ext. intros n d _.
  f_equal. f_equal. apply abs64_s64_opp.
Qed.

Lemma X10_fpDistance_zero_on_proportional_witness :
  fpDistance fp_three fp_three 10 = 0
  /\ fpDistance (scale 7 fp_three) fp_three 10 = 0
  /\ fpDistance fp_three (scale 7 fp_three) 10 = 0.
Proof.
  apply (X10_fpDistance_zero_on_proportional fp_three 7 10); simpl; lia.
Defined.

(** X11: when the product of the totals times [14 + penalty] is below 16 the
    threshold truncates to 0 and the comparator answers "too different"
    whatever the counters are, even for identical fingerprints: so it is with
    an empty fingerprint on either side, and with one sample on each side and
    a penalty of 0 or 1. *)
Theorem X11_compareFingerprints_zero_threshold ref newfp penalty hashLog :
  0 <= nbEvents ref < 2 ^ 64 -> 0 <= nbEvents newfp < 2 ^ 64 ->
  0 <= penalty -> nbEvents ref * nbEvents newfp * (14 + penalty) < 16 ->
  compareFingerprints ref newfp penalty hashLog = true.
Proof.
  intros Hr Hn Hp Hsmall. unfold compareFingerprints. cbv zeta.
  change THRESHOLD_BASE with 14. change THRESHOLD_PENALTY_RATE with 16.
  assert (Hprod : 0 <= nbEvents ref * nbEvents newfp) by nia.
  assert (Hpen : 14 + penalty <= 16 \/ nbEvents ref * nbEvents newfp = 0) by nia.
  rewrite (u64_small (nbEvents ref)), (u64_small (nbEvents newfp)) by lia.
  pose proof (fpDistance_nonneg ref newfp hashLog) as Hd.
  apply Z.leb_le.
  destruct Hpen as [Hpen | Hzero].
  - rewrite s32_small by lia. rewrite (u64_small (14 + penalty)) by lia.
    rewrite (u64_small (nbEvents ref * nbEvents newfp)) by nia.
    rewrite u64_small by nia.
    rewrite Z.div_small by nia. exact Hd.
  - rewrite Hzero. change (u64 0) with 0. rewrite Z.mul_0_l.
    change (u64 0 / 16) with 0. exact Hd.
Qed.

Lemma X11_compareFingerprints_zero_threshold_witness :
  compareFingerprints (mkFingerprint (events fp_three) 1)
    (mkFingerprint (events fp_three) 1) 1 10 = true.
Proof.
  apply X11_compareFingerprints_zero_threshold; simpl; lia.
Defined.

(** Under [comparison_exact] the comparator is the exact comparison. *)
Lemma compareFingerprints_exact_leb ref cand penalty hashLog :
  0 < nbEvents ref -> 0 < nbEvents cand -> 0 <= penalty ->
  comparison_exact ref cand penalty hashLog = true ->
  compareFingerprints ref cand penalty hashLog
  = (spec_threshold ref cand penalty <=? spec_distance ref cand hashLog).
Proof.
  intros Hr Hc Hp Hx.
  unfold compareFingerprints. cbv zeta.
  rewrite (fpDistance_exact ref cand penalty hashLog) by assumption.
  unfold comparison_exact in Hx.
  repeat (apply andb_prop in Hx as [Hx ?]).
  unfold INT_MAX in *.
  change THRESHOLD_BASE with 14. change THRESHOLD_PENALTY_RATE with 16.
  assert (nbEvents ref * nbEvents cand < 2 ^ 64) by nia.
  assert (nbEvents ref < 2 ^ 64) by nia.
  assert (nbEvents cand < 2 ^ 64) by nia.
  rewrite (u64_small (nbEvents ref)), (u64_small (nbEvents cand)) by lia.
  rewrite (u64_small (nbEvents ref * nbEvents cand)) by nia.
  rewrite s32_small by lia.
  rewrite (u64_small (14 + penalty)) by lia.
  rewrite u64_small by nia.
  reflexivity.
Qed.

Lemma comparison_exact_penalty_le ref cand penalty penalty' hashLog :
  0 < nbEvents ref -> 0 < nbEvents cand -> 0 <= penalty' <= penalty ->
  comparison_exact ref cand penalty hashLog = true ->
  comparison_exact ref cand penalty' hashLog = true.
Proof.
  intros Hr Hc Hp Hx. unfold comparison_exact in *.
  repeat (apply andb_prop in Hx as [Hx ?]).
  repeat (apply andb_true_intro; split); try assumption.
  - apply Z.ltb_lt. nia.
  - apply Z.leb_le. lia.
Qed.

(** X12: a lower penalty never makes the comparator more lenient.  Within
    the range where the comparison is exact, two fingerprints judged "too
    different" under a penalty are judged so under every smaller one; the
    penalty only decreases during a scan, so a pair rejected early would be
    rejected later too. *)
Theorem X12_compareFingerprints_penalty_monotone ref cand penalty penalty' hashLog :
  0 < nbEvents ref -> 0 < nbEvents cand -> 0 <= penalty' <= penalty ->
  comparison_exact ref cand penalty hashLog = true ->
  compareFingerprints ref cand penalty hashLog = true ->
  compareFingerprints ref cand penalty' hashLog = true.
Proof.
  intros Hr Hc Hp Hx Hcmp.
  pose proof (comparison_exact_penalty_le _ _ _ _ _ Hr Hc Hp Hx) as Hx'.
  rewrite compareFingerprints_exact_leb in * by (assumption || lia).
  apply Z.leb_le in Hcmp. apply Z.leb_le.
  eapply Z.le_trans; [|exact Hcmp].
  unfold spec_threshold. apply Z.div_le_mono; [lia|].
  apply Z.mul_le_mono_nonneg_l; [|lia].
  apply Z.mul_nonneg_nonneg; lia.
Qed.

Lemma X12_compareFingerprints_penalty_monotone_witness :
  compareFingerprints fp_three fp_two 0 10 = true.
Proof.
  apply (X12_compareFingerprints_penalty_monotone fp_three fp_two 3 0 10);
    [simpl; lia | simpl; lia | lia | vm_compute; reflexivity
     | vm_compute; reflexivity].
Defined.

Lemma Zsum_upto_le_pointwise count f g :
  (forall n, (n < count)%nat -> f n <= g n) -> Zsum_upto count f <= Zsum_upto count g.
Proof.
  induction count as [|c IH]; intros Hfg; [change (0 <= 0); lia|].
  rewrite !Zsum_upto_S. specialize (Hfg c ltac:(lia)) as Hc.
  assert (Zsum_upto c f <= Zsum_upto c g) by (apply IH; intros; apply Hfg; lia).
  lia.
Qed.

(** X13: within the range where the comparison is exact, the distance is at
    most [cand.total * sum(ref.counts) + ref.total * sum(cand.counts)]: when
    each total is the sum of its counts that is twice the product of the
    totals, the scale the threshold is a fraction of. *)
Theorem X13_fpDistance_upper_bound ref cand penalty hashLog :
  0 < nbEvents ref -> 0 < nbEvents cand -> 0 <= penalty ->
  comparison_exact ref cand penalty hashLog = true ->
  fpDistance ref cand hashLog
  <= nbEvents cand * sum_counts ref hashLog + nbEvents ref * sum_counts cand hashLog.
Proof.
  intros Hr Hc Hp Hx.
  rewrite (fpDistance_exact ref cand penalty hashLog) by assumption.
  unfold comparison_exact in Hx.
  repeat (apply andb_prop in Hx as [Hx ?]).
  unfold spec_distance, sum_counts.
  rewrite <- !Zsum_upto_scale, <- Zsum_upto_add.
  apply Zsum_upto_le_pointwise. intros b Hb.
  rewrite forallb_forall in H2.
  specialize (H2 b ltac:(apply in_seq; lia)). unfold bucket_exact in H2.
  repeat (apply andb_prop in H2 as [H2 ?]).
  assert (0 <= ev (events ref) b * nbEvents cand) by nia.
  assert (0 <= ev (events cand) b * nbEvents ref) by nia.
  lia.
Qed.

Lemma X13_fpDistance_upper_bound_witness :
  fpDistance fp_three fp_two 10
  <= nbEvents fp_two * sum_counts fp_three 10 + nbEvents fp_three * sum_counts fp_two 10.
Proof.
  apply (X13_fpDistance_upper_bound fp_three fp_two 3 10);
    [simpl; lia | simpl; lia | lia | vm_compute; reflexivity].
Defined.

(** *** Chunk scanner *)

(** From a position [k] chunks into a block of any size that holds a whole
    chunk, with fuel for the chunks that remain, the loop returns. *)
Lemma scan_loop_range_any m p blockSize splitStrat :
  CHUNKSIZE <= blockSize < 2 ^ 63 ->
  forall (fuel : nat) (st : scan_state) (k : Z),
    pos st = k * CHUNKSIZE -> 1 <= k ->
    Z.max 1 (blockSize / CHUNKSIZE + 1 - k) <= Z.of_nat fuel ->
    exists r,
      scan_loop fuel m p blockSize splitStrat st = Some r
      /\ (r = blockSize
          \/ exists j, k <= j /\ r = j * CHUNKSIZE /\ r + CHUNKSIZE <= blockSize).
Proof.
  intros Hsize.
  induction fuel as [|fuel IH]; intros st k Hpos Hk Hfuel; [lia|].
  rewrite CHUNKSIZE_eq in Hsize, Hpos, Hfuel.
  change (scan_loop (S fuel) m p blockSize splitStrat st)
    with (if pos st <=? u64 (blockSize - CHUNKSIZE)
          then match scan_body m p splitStrat st with
               | None => None
               | Some (Return offset) => Some offset
               | Some (Next st') => scan_loop fuel m p blockSize splitStrat st'
               end
          else Some blockSize).
  rewrite Hpos, CHUNKSIZE_eq.
  rewrite u64_small by lia.
  destruct (Z.leb_spec (k * 8192) (blockSize - 8192)) as [Hle|Hgt].
  - destruct (scan_body_cases m p splitStrat st) as [Hret | (st' & Hnext & Hpos' & _)].
    + rewrite Hret. exists (pos st). split; [reflexivity|].
      right. exists k. rewrite Hpos. lia.
    + rewrite Hnext.
      rewrite Hpos, CHUNKSIZE_eq, u64_small in Hpos' by lia.
      assert (k + 1 <= blockSize / 8192) by lia_mod.
      destruct (IH st' (k + 1)) as (r & Hr & Hcases);
        rewrite ?CHUNKSIZE_eq; try lia.
      exists r. split; [exact Hr|].
      destruct Hcases as [-> | (j & Hj & -> & Hfit)]; [left; reflexivity|].
      right. exists j. rewrite ?CHUNKSIZE_eq in *. lia.
  - exists blockSize. split; [reflexivity|]. left. reflexivity.
Qed.

(** X14: the driver copes with every block size from one chunk up, not only
    the asserted 128 KiB.  It returns, and the offset is either [blockSize]
    or a multiple of [CHUNKSIZE] that leaves at least one whole chunk after
    it; a trailing part shorter than a chunk is never compared, and a block
    shorter than two chunks always yields [blockSize]. *)
Theorem X14_any_block_size m blockStart blockSize splitStrat workspace wkspSize :
  CHUNKSIZE <= blockSize < 2 ^ 63 ->
  exists r,
    ZSTD_splitBlock m blockStart blockSize splitStrat workspace wkspSize = Some r
    /\ (r = blockSize
        \/ exists j, 1 <= j /\ r = j * CHUNKSIZE /\ r + CHUNKSIZE <= blockSize)
    /\ (blockSize < 2 * CHUNKSIZE -> r = blockSize).
Proof.
  intros Hsize.
  unfold ZSTD_splitBlock, ZSTD_splitBlock_byChunks. rewrite scan_init_eq.
  destruct (scan_loop_range_any m blockStart blockSize splitStrat Hsize
              (S (Z.to_nat (blockSize / CHUNKSIZE)))
              (mkScan CHUNKSIZE THRESHOLD_PENALTY
                 (mkFPStats (chunk_fp splitStrat m blockStart) zeroFingerprint)) 1)
    as (r & Hr & Hcases).
  - cbn [pos]. lia.
  - lia.
  - rewrite CHUNKSIZE_eq in *.
    assert (0 <= blockSize / 8192) by (apply Z.div_pos; lia). lia.
  - exists r. split; [exact Hr|]. split; [exact Hcases|].
    intros Hshort. destruct Hcases as [-> | (j & Hj & -> & Hfit)]; [reflexivity|].
    rewrite CHUNKSIZE_eq in *. lia.
Qed.

Lemma X14_any_block_size_witness :
  exists r,
    ZSTD_splitBlock two_tone_block 0 20000 split_lvl2 workspace0 0 = Some r
    /\ (r = 20000
        \/ exists j, 1 <= j /\ r = j * CHUNKSIZE /\ r + CHUNKSIZE <= 20000)
    /\ (20000 < 2 * CHUNKSIZE -> r = 20000).
Proof.
  apply (X14_any_block_size two_tone_block 0 20000 split_lvl2 workspace0 0).
  rewrite CHUNKSIZE_eq. lia.
Defined.

Lemma scan_steps_snoc m p blockSize splitStrat st0 n st st' :
  scan_steps m p blockSize splitStrat st0 n st ->
  (pos st <=? u64 (blockSize - CHUNKSIZE)) = true ->
  scan_body m p splitStrat st = Some (Next st') ->
  scan_steps m p blockSize splitStrat st0 (S n) st'.
Proof.
  induction 1 as [st | st0 st1 st d Hguard Hbody Hsteps IH]; intros Hg Hb.
  - econstructor; [exact Hg|exact Hb|constructor].
  - econstructor; [exact Hguard|exact Hbody|]. apply IH; assumption.
Qed.

(** A result of the loop comes from a state that the accepted comparisons
    lead to: there the comparison rejects, or the loop test fails. *)
Lemma scan_loop_result m p blockSize splitStrat st0 r :
  forall (fuel : nat) (n : nat) (st : scan_state),
    scan_steps m p blockSize splitStrat st0 n st ->
    scan_loop fuel m p blockSize splitStrat st = Some r ->
    exists (n' : nat) (st' : scan_state),
      scan_steps m p blockSize splitStrat st0 n' st'
      /\ (((pos st' <=? u64 (blockSize - CHUNKSIZE)) = true
           /\ scan_body m p splitStrat st' = Some (Return r) /\ r = pos st')
          \/ ((pos st' <=? u64 (blockSize - CHUNKSIZE)) = false /\ r = blockSize)).
Proof.
  induction fuel as [|fuel IH]; intros n st Hsteps Hloop; [discriminate|].
  simpl in Hloop.
  destruct (pos st <=? u64 (blockSize - CHUNKSIZE)) eqn:Hguard.
  - destruct (scan_body_cases m p splitStrat st) as [Hret | (st' & Hnext & _)].
    + rewrite Hret in Hloop. injection Hloop as <-.
      exists n, st. split; [exact Hsteps|]. left. repeat split; assumption.
    + rewrite Hnext in Hloop.
      apply (IH (S n) st'); [|exact Hloop].
      eapply scan_steps_snoc; eassumption.
  - injection Hloop as <-. exists n, st. split; [exact Hsteps|]. right. split; auto.
Qed.

(** X15: what the driver returns is the position of the first comparison that
    rejects.  Whenever it returns [r], the scan has accepted some number [n]
    of comparisons in a row and reached a state where either the loop test
    holds, the comparison of the reference with the chunk at [pos] answers
    "too different" and [r] is that [pos], or the loop test fails and [r] is
    [blockSize]. *)
Theorem X15_returns_first_rejection m blockStart blockSize splitStrat workspace
    wkspSize r :
  ZSTD_splitBlock m blockStart blockSize splitStrat workspace wkspSize = Some r ->
  exists (n : nat) (st : scan_state),
    scan_reach m blockStart blockSize splitStrat workspace n st
    /\ (((pos st <=? u64 (blockSize - CHUNKSIZE)) = true
         /\ compareFingerprints (pastEvents (fpstats st))
              (recorded splitStrat (newEvents (fpstats st)) m (blockStart + pos st))
              (penalty st) (hashParams splitStrat) = true
         /\ r = pos st)
        \/ ((pos st <=? u64 (blockSize - CHUNKSIZE)) = false /\ r = blockSize)).
Proof.
  unfold ZSTD_splitBlock, ZSTD_splitBlock_byChunks.
  destruct (scan_init m blockStart splitStrat workspace) as [st0|] eqn:Hinit;
    [|discriminate].
  intros Hloop.
  destruct (scan_loop_result m blockStart blockSize splitStrat st0 r _ O st0
              (steps_done _ _ _ _ st0) Hloop) as (n & st & Hsteps & Hcases).
  exists n, st. split; [exists st0; split; assumption|].
  destruct Hcases as [(Hguard & Hbody & Hr) | Hend]; [left|right; exact Hend].
  split; [exact Hguard|]. split; [|exact Hr].
  rewrite scan_body_eq in Hbody. cbv zeta in Hbody.
  destruct (compareFingerprints _ _ _ _); [reflexivity|discriminate].
Qed.

Lemma X15_returns_first_rejection_witness :
  exists (n : nat) (st : scan_state),
    scan_reach shifted_block 0 BLOCKSIZE split_lvl1 workspace0 n st
    /\ (((pos st <=? u64 (BLOCKSIZE - CHUNKSIZE)) = true
         /\ compareFingerprints (pastEvents (fpstats st))
              (recorded split_lvl1 (newEvents (fpstats st)) shifted_block (0 + pos st))
              (penalty st) (hashParams split_lvl1) = true
         /\ CHUNKSIZE = pos st)
        \/ ((pos st <=? u64 (BLOCKSIZE - CHUNKSIZE)) = false /\ CHUNKSIZE = BLOCKSIZE)).
Proof.
  apply (X15_returns_first_rejection shifted_block 0 BLOCKSIZE split_lvl1
           workspace0 0 CHUNKSIZE).
  apply shifted_block_lvl1.
Defined.

(** X16: a 128 KiB block that repeats one 8 KiB chunk sixteen times is never
    split, whatever the chunk holds and whichever strategy is used. *)
Theorem X16_repeated_chunk_no_split m blockStart splitStrat workspace wkspSize :
  (forall k i, 0 <= k < 16 -> 0 <= i < CHUNKSIZE ->
     m (blockStart + k * CHUNKSIZE + i) = m (blockStart + i)) ->
  ZSTD_splitBlock m blockStart BLOCKSIZE splitStrat workspace wkspSize = Some BLOCKSIZE.
Proof.
  intros Hrep.
  apply (equal_chunks_no_split m blockStart splitStrat (chunk_fp splitStrat m blockStart)).
  intros j Hj. unfold chunk_fp. apply recorded_ext.
  rewrite CHUNKSIZE_eq in *. intros n Hn _.
  unfold hash2, MEM_read16, load8.
  rewrite <- !Z.add_assoc, !(Z.add_assoc blockStart).
  rewrite (Hrep (Z.of_nat j) n), (Hrep (Z.of_nat j) (n + 1)) by lia.
  rewrite <- !Z.add_assoc. reflexivity.
Qed.

Lemma X16_repeated_chunk_no_split_witness :
  ZSTD_splitBlock periodic_block 0 BLOCKSIZE split_lvl3 workspace0 0 = Some BLOCKSIZE.
Proof.
  apply (X16_repeated_chunk_no_split periodic_block 0 split_lvl3 workspace0 0).
  intros k i Hk Hi. rewrite CHUNKSIZE_eq in *. unfold periodic_block.
  replace ((0 + k * 8192 + i) mod 8192) with ((0 + i) mod 8192) by lia_mod.
  reflexivity.
Defined.

Lemma sum_counts_chunk_fp splitStrat m src :
  sum_counts (chunk_fp splitStrat m src) (hashParams splitStrat)
  = nbSamples CHUNKSIZE (samplingRate_of splitStrat).
Proof.
  pose proof (samplingRate_of_range splitStrat) as Hr.
  pose proof (hashParams_range splitStrat) as Hh.
  destruct (recordFingerprint_generic_total zeroFingerprint m src CHUNKSIZE
              (samplingRate_of splitStrat) (hashParams splitStrat))
    as (fp' & Hrec & _ & Hsum); rewrite ?CHUNKSIZE_eq; try lia.
  rewrite <- records_fs_unfold, records_fs_chunk in Hrec.
  apply (inj Some) in Hrec. subst fp'. exact Hsum.
Qed.

Lemma nbSamples_chunk_ge splitStrat :
  (CHUNKSIZE - 1) / samplingRate_of splitStrat
  <= nbSamples CHUNKSIZE (samplingRate_of splitStrat).
Proof. destruct splitStrat; vm_compute; discriminate. Qed.

(** Two chunk fingerprints that share no bucket are "too different" under
    every penalty of the driver. *)
Lemma compareFingerprints_disjoint_chunks splitStrat m src src' penalty :
  0 <= penalty <= 3 ->
  disjoint_buckets (chunk_fp splitStrat m src) (chunk_fp splitStrat m src')
    (hashParams splitStrat) = true ->
  compareFingerprints (chunk_fp splitStrat m src) (chunk_fp splitStrat m src')
    penalty (hashParams splitStrat) = true.
Proof.
  intros Hpen Hdis.
  set (F0 := chunk_fp splitStrat m src) in *.
  set (F1 := chunk_fp splitStrat m src') in *.
  pose proof (nbEvents_recorded_range splitStrat zeroFingerprint m src) as Hq0.
  pose proof (nbEvents_recorded_range splitStrat zeroFingerprint m src') as Hq1.
  pose proof (nbEvents_recorded splitStrat zeroFingerprint m src) as He0.
  pose proof (nbEvents_recorded splitStrat zeroFingerprint m src') as He1.
  fold (chunk_fp splitStrat m src) in Hq0, He0.
  fold (chunk_fp splitStrat m src') in Hq1, He1.
  fold F0 in Hq0, He0. fold F1 in Hq1, He1.
  pose proof (hashParams_range splitStrat) as Hh.
  pose proof (nbSamples_chunk_ge splitStrat) as HS.
  pose proof (nbSamples_chunk_range splitStrat) as HS'.
  assert (Hb0 : Forall (fun x => 0 <= x <= 2 ^ 17) (events F0)).
  { eapply Forall_impl; [apply chunk_fp_bound|]. cbv beta. intros x Hx. lia. }
  assert (Hb1 : Forall (fun x => 0 <= x <= 2 ^ 17) (events F1)).
  { eapply Forall_impl; [apply chunk_fp_bound|]. cbv beta. intros x Hx. lia. }
  rewrite compareFingerprints_exact_leb; try lia;
    [|apply comparison_exact_bounded; try assumption; lia].
  apply Z.leb_le.
  assert (Hdist : spec_distance F0 F1 (hashParams splitStrat)
                  = nbEvents F1 * sum_counts F0 (hashParams splitStrat)
                    + nbEvents F0 * sum_counts F1 (hashParams splitStrat)).
  { unfold spec_distance, sum_counts.
    rewrite <- !Zsum_upto_scale, <- Zsum_upto_add.
    apply Zsum_upto_ext. intros b Hb.
    unfold disjoint_buckets in Hdis. rewrite forallb_forall in Hdis.
    specialize (Hdis b ltac:(apply in_seq; lia)).
    pose proof (ev_Forall _ _ b Hb0 ltac:(cbv beta; lia)) as Ha. cbv beta in Ha.
    pose proof (ev_Forall _ _ b Hb1 ltac:(cbv beta; lia)) as Hc. cbv beta in Hc.
    apply orb_prop in Hdis as [Hz | Hz]; apply Z.eqb_eq in Hz; rewrite Hz; nia. }
  rewrite Hdist. unfold F0 at 2, F1 at 3. rewrite !sum_counts_chunk_fp.
  unfold spec_threshold. rewrite He0, He1 in *.
  set (q := (CHUNKSIZE - 1) / samplingRate_of splitStrat) in *.
  set (S0 := nbSamples CHUNKSIZE (samplingRate_of splitStrat)) in *.
  apply Z.div_le_upper_bound; [lia|]. nia.
Qed.

(** X17: an abrupt change after the first chunk is found at once.  When the
    fingerprints of the first two chunks of a 128 KiB block share no bucket,
    the driver returns [CHUNKSIZE], for every strategy. *)
Theorem X17_disjoint_chunks_split_at_first_boundary m blockStart splitStrat
    workspace wkspSize :
  disjoint_buckets (chunk_fp splitStrat m blockStart)
    (chunk_fp splitStrat m (blockStart + CHUNKSIZE)) (hashParams splitStrat) = true ->
  ZSTD_splitBlock m blockStart BLOCKSIZE splitStrat workspace wkspSize = Some CHUNKSIZE.
Proof.
  intros Hdis.
  unfold ZSTD_splitBlock, ZSTD_splitBlock_byChunks. rewrite scan_init_eq.
  set (st := mkScan CHUNKSIZE THRESHOLD_PENALTY
               (mkFPStats (chunk_fp splitStrat m blockStart) zeroFingerprint)).
  change (S (Z.to_nat (BLOCKSIZE / CHUNKSIZE))) with (S 16).
  change (scan_loop (S 16) m blockStart BLOCKSIZE splitStrat st)
    with (if pos st <=? u64 (BLOCKSIZE - CHUNKSIZE)
          then match scan_body m blockStart splitStrat st with
               | None => None
               | Some (Return offset) => Some offset
               | Some (Next st') => scan_loop 16 m blockStart BLOCKSIZE splitStrat st'
               end
          else Some BLOCKSIZE).
  rewrite scan_body_eq. cbv zeta. subst st. cbn [pos penalty fpstats pastEvents newEvents].
  fold (chunk_fp splitStrat m (blockStart + CHUNKSIZE)).
  rewrite compareFingerprints_disjoint_chunks;
    [reflexivity | unfold THRESHOLD_PENALTY; lia | exact Hdis].
Qed.

Lemma X17_disjoint_chunks_split_at_first_boundary_witness :
  ZSTD_splitBlock two_tone_block 0 BLOCKSIZE split_lvl1 workspace0 0 = Some CHUNKSIZE.
Proof.
  apply (X17_disjoint_chunks_split_at_first_boundary two_tone_block 0 split_lvl1
           workspace0 0).
  vm_compute. reflexivity.
Defined.

(** Two scans proceed alike when the memories agree on the bytes of the
    sampled windows of every chunk. *)
Lemma scan_loop_sampled_ext m1 p1 m2 p2 splitStrat :
  (forall k n, 0 <= k < 16 -> 0 <= n < CHUNKSIZE - 1 ->
     n mod samplingRate_of splitStrat = 0 ->
     m1 (p1 + k * CHUNKSIZE + n) = m2 (p2 + k * CHUNKSIZE + n)
     /\ m1 (p1 + k * CHUNKSIZE + n + 1) = m2 (p2 + k * CHUNKSIZE + n + 1)) ->
  forall (fuel : nat) (st : scan_state) (k : Z),
    pos st = k * CHUNKSIZE -> 1 <= k ->
    scan_loop fuel m1 p1 BLOCKSIZE splitStrat st
    = scan_loop fuel m2 p2 BLOCKSIZE splitStrat st.
Proof.
  intros Hmem.
  induction fuel as [|fuel IH]; intros st k Hpos Hk; [reflexivity|].
  simpl. rewrite Hpos, BLOCKSIZE_eq, CHUNKSIZE_eq, u64_small by lia.
  destruct (Z.leb_spec (k * 8192) (131072 - 8192)) as [Hle|Hgt]; [|reflexivity].
  assert (Hbody : scan_body m1 p1 splitStrat st = scan_body m2 p2 splitStrat st).
  { rewrite !scan_body_eq.
    rewrite (recorded_ext splitStrat _ m1 (p1 + pos st) m2 (p2 + pos st));
      [reflexivity|].
    intros n Hn Hmod. rewrite Hpos.
    destruct (Hmem k n ltac:(lia) Hn Hmod) as [H0 H1].
    unfold hash2, MEM_read16, load8. rewrite H0, H1. reflexivity. }
  rewrite Hbody.
  destruct (scan_body_cases m2 p2 splitStrat st) as [-> | (st' & -> & Hpos' & _)];
    [reflexivity|].
  apply (IH st' (k + 1)); [|lia].
  rewrite Hpos', Hpos, CHUNKSIZE_eq, u64_small; lia.
Qed.

(** X18: the result depends only on the two bytes of each sampled window:
    in every chunk those at the offsets [n] and [n + 1] for the multiples [n]
    of the stride below [CHUNKSIZE - 1].  Two 128 KiB blocks that agree on
    these bytes get the same answer; with stride 11 (level 1) nine bytes of
    every eleven have no influence, with stride 5 (level 2) three of five. *)
Theorem X18_only_sampled_bytes_matter m1 p1 m2 p2 splitStrat
    (workspace1 workspace2 : FPStats) (wkspSize1 wkspSize2 : Z) :
  (forall k n, 0 <= k < 16 -> 0 <= n < CHUNKSIZE - 1 ->
     n mod samplingRate_of splitStrat = 0 ->
     m1 (p1 + k * CHUNKSIZE + n) = m2 (p2 + k * CHUNKSIZE + n)
     /\ m1 (p1 + k * CHUNKSIZE + n + 1) = m2 (p2 + k * CHUNKSIZE + n + 1)) ->
  ZSTD_splitBlock m1 p1 BLOCKSIZE splitStrat workspace1 wkspSize1
  = ZSTD_splitBlock m2 p2 BLOCKSIZE splitStrat workspace2 wkspSize2.
Proof.
  intros Hmem.
  unfold ZSTD_splitBlock, ZSTD_splitBlock_byChunks. rewrite !scan_init_eq.
  assert (Hfirst : chunk_fp splitStrat m1 p1 = chunk_fp splitStrat m2 p2).
  { unfold chunk_fp. apply recorded_ext. intros n Hn Hmod.
    destruct (Hmem 0 n ltac:(lia) Hn Hmod) as [H0 H1].
    rewrite Z.mul_0_l, !Z.add_0_r in H0, H1.
    unfold hash2, MEM_read16, load8. rewrite H0, H1. reflexivity. }
  rewrite Hfirst.
  apply (scan_loop_sampled_ext m1 p1 m2 p2 splitStrat Hmem _ _ 1); [|lia].
  cbn [pos]. lia.
Qed.

Lemma X18_only_sampled_bytes_matter_witness :
  ZSTD_splitBlock dense_block 0 BLOCKSIZE split_lvl1 workspace0 0
  = ZSTD_splitBlock (fun _ => x00) 0 BLOCKSIZE split_lvl1 workspace0 0.
Proof.
  apply X18_only_sampled_bytes_matter.
  rewrite CHUNKSIZE_eq. cbn [samplingRate_of]. intros k n Hk Hn Hmod.
  destruct (dense_block_sampled (Z.to_nat k) n ltac:(lia) Hmod) as [H0 H1].
  rewrite Z2Nat.id in H0, H1 by lia.
  split; assumption.
Defined.

Lemma scan_steps_bounded m p splitStrat st d st' :
  scan_steps m p BLOCKSIZE splitStrat st d st' ->
  forall j : nat,
    scan_bounded splitStrat j st ->
    nbEvents (pastEvents (fpstats st))
    = (Z.of_nat j + 1) * ((CHUNKSIZE - 1) / samplingRate_of splitStrat) ->
    scan_bounded splitStrat (j + d) st'
    /\ nbEvents (pastEvents (fpstats st'))
       = (Z.of_nat (j + d) + 1) * ((CHUNKSIZE - 1) / samplingRate_of splitStrat)
    /\ (d = O \/ (j + d <= 15)%nat).
Proof.
  induction 1 as [st | st st1 st' d Hguard Hbody Hsteps IH]; intros j Hb Hnb.
  - rewrite Nat.add_0_r. split; [exact Hb|]. split; [exact Hnb|]. left. reflexivity.
  - pose proof (scan_bounded_step m p splitStrat j st st1 Hb Hguard Hbody) as Hb1.
    assert (Hj : (j <= 14)%nat).
    { destruct Hb as (Hpos & _). rewrite Hpos, BLOCKSIZE_eq, CHUNKSIZE_eq in Hguard.
      rewrite u64_small in Hguard by lia. apply Z.leb_le in Hguard. lia. }
    assert (Hnb1 : nbEvents (pastEvents (fpstats st1))
                   = (Z.of_nat (S j) + 1) * ((CHUNKSIZE - 1) / samplingRate_of splitStrat)).
    { rewrite scan_body_eq in Hbody. cbv zeta in Hbody.
      destruct (compareFingerprints _ _ _ _); [discriminate|].
      apply (inj Some) in Hbody. injection Hbody as <-.
      cbn [fpstats pastEvents]. rewrite nbEvents_mergeEvents, nbEvents_recorded, Hnb.
      pose proof (nbEvents_recorded_range splitStrat zeroFingerprint m p) as Hq.
      rewrite nbEvents_recorded in Hq.
      set (q := (CHUNKSIZE - 1) / samplingRate_of splitStrat) in *.
      rewrite u64_small; nia. }
    destruct (IH (S j) Hb1 Hnb1) as (Hb' & Hnb' & Hd).
    replace (j + S d)%nat with (S j + d)%nat by lia.
    split; [exact Hb'|]. split; [exact Hnb'|]. right. lia.
Qed.

(** X19: what every scan of a 128 KiB block keeps.  After [n] accepted
    comparisons, [n] is at most 15, the position is [(n + 1) * CHUNKSIZE],
    the reference total is [n + 1] times the total of one chunk
    ([(CHUNKSIZE - 1) / rate]), the reference still has its 1024 counters
    and none of them exceeds [(n + 1) * 8191]: no counter and no total wraps
    during a scan. *)
Theorem X19_scan_invariant m blockStart splitStrat workspace n st :
  scan_reach m blockStart BLOCKSIZE splitStrat workspace n st ->
  (n <= 15)%nat
  /\ pos st = (Z.of_nat n + 1) * CHUNKSIZE
  /\ nbEvents (pastEvents (fpstats st))
     = (Z.of_nat n + 1) * ((CHUNKSIZE - 1) / samplingRate_of splitStrat)
  /\ length (events (pastEvents (fpstats st))) = Z.to_nat HASHTABLESIZE
  /\ Forall (fun x => 0 <= x <= (Z.of_nat n + 1) * 8191)
            (events (pastEvents (fpstats st))).
Proof.
  intros (st0 & Hinit & Hsteps).
  pose proof (scan_bounded_init _ _ _ _ _ Hinit) as Hb0.
  assert (Hnb0 : nbEvents (pastEvents (fpstats st0))
                 = (Z.of_nat O + 1) * ((CHUNKSIZE - 1) / samplingRate_of splitStrat)).
  { rewrite scan_init_eq in Hinit. apply (inj Some) in Hinit. subst st0.
    cbn [fpstats pastEvents]. unfold chunk_fp. rewrite nbEvents_recorded. lia. }
  destruct (scan_steps_bounded _ _ _ _ _ _ Hsteps O Hb0 Hnb0)
    as ((Hpos & _ & Hlen & Hall & _) & Hnb & Hn).
  simpl Nat.add in *. repeat split; try assumption. lia.
Qed.

Lemma X19_scan_invariant_witness :
  exists st,
    scan_reach periodic_block 0 BLOCKSIZE split_lvl2 workspace0 7 st
    /\ pos st = (Z.of_nat 7 + 1) * CHUNKSIZE
    /\ nbEvents (pastEvents (fpstats st))
       = (Z.of_nat 7 + 1) * ((CHUNKSIZE - 1) / samplingRate_of split_lvl2).
Proof.
  set (F := chunk_fp split_lvl2 periodic_block 0).
  assert (Hchunks : forall j : nat, (j <= 15)%nat ->
            chunk_fp split_lvl2 periodic_block (0 + Z.of_nat j * CHUNKSIZE) = F).
  { intros j Hj. unfold F, chunk_fp. apply recorded_ext.
    rewrite CHUNKSIZE_eq. intros n Hn _.
    unfold hash2, MEM_read16, load8, periodic_block.
    replace ((0 + Z.of_nat j * 8192 + n) mod 8192) with ((0 + n) mod 8192) by lia_mod.
    replace ((0 + Z.of_nat j * 8192 + n + 1) mod 8192) with ((0 + n + 1) mod 8192)
      by lia_mod.
    reflexivity. }
  destruct (scan_inv_init periodic_block 0 split_lvl2 F 15 ltac:(lia) Hchunks workspace0)
    as (st0 & Hinit & Hinv0).
  destruct (scan_loop_equal_chunks periodic_block 0 split_lvl2 F 15 ltac:(lia) Hchunks
              BLOCKSIZE 7 O st0 O Hinv0 ltac:(lia) eq_refl)
    as (st' & _ & Hsteps & _).
  exists st'.
  assert (Hreach : scan_reach periodic_block 0 BLOCKSIZE split_lvl2 workspace0 7 st')
    by (exists st0; split; assumption).
  split; [exact Hreach|].
  destruct (X19_scan_invariant periodic_block 0 split_lvl2 workspace0 7 st' Hreach)
    as (_ & Hpos & Hnb & _).
  split; assumption.
Defined.

(** *** Edge cases of the recorder and the comparator *)

(** X20: below the asserted minimum, a range of one byte holds no 2-byte
    window: [addEvents_generic] leaves the fingerprint as it is, and a
    recording pass leaves the cleared counters and a total of 0. *)
Theorem X20_one_byte_records_nothing fp m src samplingRate hashLog :
  1 <= samplingRate -> 0 <= nbEvents fp < 2 ^ 64 ->
  addEvents_generic fp m src 1 samplingRate hashLog = Some fp
  /\ recordFingerprint_generic fp m src 1 samplingRate hashLog
     = Some (mkFingerprint (memset_events (events fp) (Z.shiftl 1 hashLog)) 0).
Proof.
  intros Hrate Hnb.
  unfold recordFingerprint_generic, addEvents_generic. cbv zeta.
  change (u64 (1 - HASHLENGTH + 1)) with 0.
  change (Z.to_nat 0) with O. cbn [for_stride Z.ltb Z.compare events nbEvents].
  rewrite Z.div_0_l by lia. rewrite !Z.add_0_r.
  split.
  - rewrite u64_small by lia. destruct fp. reflexivity.
  - reflexivity.
Qed.

Lemma X20_one_byte_records_nothing_witness :
  addEvents_generic fp_three two_tone_block 8191 1 11 9 = Some fp_three
  /\ recordFingerprint_generic fp_three two_tone_block 8191 1 11 9
     = Some (mkFingerprint (memset_events (events fp_three) (Z.shiftl 1 9)) 0).
Proof.
  apply (X20_one_byte_records_nothing fp_three two_tone_block 8191 11 9);
    simpl; lia.
Defined.

(** X21: the verdict of the comparator does not depend on which of the two
    fingerprints is taken as the reference, for every penalty and
    [hashLog], wrap-around included. *)
Theorem X21_compareFingerprints_symmetric ref newfp penalty hashLog :
  compareFingerprints ref newfp penalty hashLog
  = compareFingerprints newfp ref penalty hashLog.
Proof.
  unfold compareFingerprints. cbv zeta.
  assert (Hd : fpDistance ref newfp hashLog = fpDistance newfp ref hashLog).
  { unfold fpDistance. apply for_upto_ext. intros n d _.
    f_equal. f_equal. apply abs64_s64_opp. }
  rewrite Hd, (Z.mul_comm (u64 (nbEvents ref))). reflexivity.
Qed.

(** *** What lies after the split point *)

Lemma scan_loop_prefix_ext m1 p1 m2 p2 splitStrat r :
  r < BLOCKSIZE ->
  (forall i, 0 <= i < r + CHUNKSIZE -> m1 (p1 + i) = m2 (p2 + i)) ->
  forall (fuel : nat) (st : scan_state) (k : Z),
    pos st = k * CHUNKSIZE -> 1 <= k <= 16 -> 17 - k <= Z.of_nat fuel ->
    scan_loop fuel m1 p1 BLOCKSIZE splitStrat st = Some r ->
    scan_loop fuel m2 p2 BLOCKSIZE splitStrat st = Some r.
Proof.
  intros Hr Hmem.
  induction fuel as [|fuel IH]; intros st k Hpos Hk Hfuel Hloop; [discriminate|].
  change (scan_loop (S fuel) m1 p1 BLOCKSIZE splitStrat st)
    with (if pos st <=? u64 (BLOCKSIZE - CHUNKSIZE)
          then match scan_body m1 p1 splitStrat st with
               | None => None
               | Some (Return offset) => Some offset
               | Some (Next st') => scan_loop fuel m1 p1 BLOCKSIZE splitStrat st'
               end
          else Some BLOCKSIZE) in Hloop.
  change (scan_loop (S fuel) m2 p2 BLOCKSIZE splitStrat st)
    with (if pos st <=? u64 (BLOCKSIZE - CHUNKSIZE)
          then match scan_body m2 p2 splitStrat st with
               | None => None
               | Some (Return offset) => Some offset
               | Some (Next st') => scan_loop fuel m2 p2 BLOCKSIZE splitStrat st'
               end
          else Some BLOCKSIZE).
  destruct (pos st <=? u64 (BLOCKSIZE - CHUNKSIZE)) eqn:Hguard;
    [|apply (inj Some) in Hloop; lia].
  rewrite Hpos, BLOCKSIZE_eq, CHUNKSIZE_eq, u64_small in Hguard by lia.
  apply Z.leb_le in Hguard.
  assert (Hreach : k * CHUNKSIZE <= r).
  { destruct (scan_body_cases m1 p1 splitStrat st) as [Hret | (st' & Hnext & Hpos' & _)].
    - rewrite Hret in Hloop. apply (inj Some) in Hloop. lia.
    - rewrite Hnext in Hloop.
      rewrite Hpos, CHUNKSIZE_eq, u64_small in Hpos' by lia.
      destruct (scan_loop_range m1 p1 splitStrat fuel st' (k + 1))
        as (r' & Hr' & Hcases); rewrite ?CHUNKSIZE_eq; try lia.
      rewrite Hloop in Hr'. apply (inj Some) in Hr'. subst r'.
      destruct Hcases as [-> | (j & Hj & ->)]; [lia|].
      rewrite CHUNKSIZE_eq. lia. }
  assert (Hbody : scan_body m1 p1 splitStrat st = scan_body m2 p2 splitStrat st).
  { rewrite !scan_body_eq.
    rewrite (recorded_ext splitStrat _ m1 (p1 + pos st) m2 (p2 + pos st));
      [reflexivity|].
    rewrite CHUNKSIZE_eq in *. intros n Hn _.
    unfold hash2, MEM_read16, load8.
    rewrite <- !Z.add_assoc. rewrite !Hmem by lia. reflexivity. }
  rewrite <- Hbody.
  destruct (scan_body_cases m1 p1 splitStrat st) as [Hret | (st' & Hnext & Hpos' & _)].
  - rewrite Hret in *. exact Hloop.
  - rewrite Hnext in *.
    rewrite Hpos, CHUNKSIZE_eq, u64_small in Hpos' by lia.
    apply (IH st' (k + 1)); rewrite ?CHUNKSIZE_eq; try lia. exact Hloop.
Qed.

(** X22: the scan stops at the first shift it detects, so nothing after the
    chunk that starts at the split point matters.  When the driver returns an
    offset [r] below [blockSize] on a 128 KiB block, it returns the same [r]
    on every block that has the same first [r + CHUNKSIZE] bytes. *)
Theorem X22_bytes_after_split_chunk_ignored m1 p1 m2 p2 splitStrat
    (workspace1 workspace2 : FPStats) (wkspSize1 wkspSize2 : Z) r :
  ZSTD_splitBlock m1 p1 BLOCKSIZE splitStrat workspace1 wkspSize1 = Some r ->
  r < BLOCKSIZE ->
  (forall i, 0 <= i < r + CHUNKSIZE -> m1 (p1 + i) = m2 (p2 + i)) ->
  ZSTD_splitBlock m2 p2 BLOCKSIZE splitStrat workspace2 wkspSize2 = Some r.
Proof.
  intros Hloop Hr Hmem.
  assert (Hpos : CHUNKSIZE <= r).
  { destruct (ZSTD_splitBlock_range m1 p1 splitStrat workspace1 wkspSize1)
      as (r' & Hr' & Hcases).
    rewrite Hloop in Hr'. apply (inj Some) in Hr'. subst r'.
    destruct Hcases as [-> | (j & Hj & ->)]; rewrite ?BLOCKSIZE_eq, ?CHUNKSIZE_eq; lia. }
  unfold ZSTD_splitBlock, ZSTD_splitBlock_byChunks in *. rewrite !scan_init_eq in *.
  assert (Hfirst : chunk_fp splitStrat m1 p1 = chunk_fp splitStrat m2 p2).
  { unfold chunk_fp. apply recorded_ext. rewrite CHUNKSIZE_eq in *. intros n Hn _.
    unfold hash2, MEM_read16, load8.
    rewrite <- !Z.add_assoc. rewrite !Hmem by lia. reflexivity. }
  rewrite <- Hfirst.
  apply (scan_loop_prefix_ext m1 p1 m2 p2 splitStrat r Hr Hmem _ _ 1);
    [cbn [pos]; lia | lia | vm_compute; discriminate | exact Hloop].
Qed.

Lemma X22_bytes_after_split_chunk_ignored_witness :
  ZSTD_splitBlock (fun a => if a <? 16384 then two_tone_block a else xff) 0 BLOCKSIZE
    split_lvl1 (mkFPStats fp_wide fp_two) 0
  = Some 8192.
Proof.
  apply (X22_bytes_after_split_chunk_ignored two_tone_block 0 _ 0 split_lvl1
           workspace0 _ 0 0 8192).
  - vm_compute. reflexivity.
  - vm_compute. reflexivity.
  - rewrite CHUNKSIZE_eq. intros i Hi. cbv beta.
    destruct (Z.ltb_spec (0 + i) 16384); [reflexivity|lia].
Defined.
